(** * Salary dashboard (app.py): filter engine and aggregation pipelines

    A shallow embedding of the data path of [app.py]: the frame loaded from
    the CSV, the sidebar selections, the boolean-mask filter that builds
    [df_filtrado], the KPI block and the group-by recipes that feed each
    chart.  Widgets and figure rendering are not modelled; a chart is
    represented by the table handed to the plotting call.

    Conventions.
    - A cell that pandas reads as NaN is [None].
    - The salary column [usd] is numeric.  A cell is the number it holds,
      as a rational ([Qc]); pandas computes on it in binary64, so every
      sum and quotient of the model is rounded to the nearest binary64
      value ([round64], ties to even).  Results beyond the binary64 range
      (infinities) are outside the model.  A mean or a maximum over no
      value is NaN, that is [None].
    - A [Series] is the list of its values in row order. *)

From Stdlib Require Import QArith Qcanon Qround.
From stdpp Require Import base option list strings numbers sorting.

Local Open Scope string_scope.

(** ** Data model *)

(** One line of the CSV, with the columns the script reads. *)
Record Row := mkRow {
  ano : option Z;
  senioridade : option string;
  contrato : option string;
  tamanho_empresa : option string;
  cargo : option string;
  usd : option Qc;
  remoto : option string;
  residencia_iso3 : option string;
  residencia : option string
}.

(** A frame: its rows in order, and whether the optional display-name
    column [residencia] is among its columns.  When it is not, the
    [residencia] field of the rows is never read. *)
Record DataFrame := mkDF {
  tem_residencia : bool;
  rows : list Row
}.

Definition colunas_base : list string :=
  ["ano"; "senioridade"; "contrato"; "tamanho_empresa"; "cargo"; "usd";
   "remoto"; "residencia_iso3"].

(** [df.columns] *)
Definition columns (df : DataFrame) : list string :=
  colunas_base ++ (if tem_residencia df then ["residencia"] else []).

(** [df.empty] *)
Definition df_empty (df : DataFrame) : bool :=
  match rows df with [] => true | _ => false end.

(** The four multiselect values of the sidebar. *)
Record Selecao := mkSel {
  anos_selecionados : list Z;
  senioridades_selecionadas : list string;
  contratos_selecionados : list string;
  tamanhos_selecionados : list string
}.

(** ** Sorting

    A stable insertion sort over a boolean comparison; [sorted],
    [sort_values], [nlargest] and the sorted group keys of [groupby] are
    built on it. *)
Section ordenacao.
Context {A : Type} (le : A → A → bool).

Fixpoint inserir (x : A) (l : list A) : list A :=
  match l with
  | [] => [x]
  | y :: l' => if le x y then x :: l else y :: inserir x l'
  end.

Definition ordenar (l : list A) : list A := foldr inserir [] l.
End ordenacao.

(** Orders used for keys: integers, strings by code unit, pairs
    lexicographically. *)
Definition Z_le (a b : Z) : bool := (a <=? b)%Z.
Definition str_le (a b : string) : bool := String.leb a b.
Definition par_le {A B} `{EqDecision A} (la : A → A → bool) (lb : B → B → bool)
    (p q : A * B) : bool :=
  if decide (p.1 = q.1) then lb p.2 q.2 else la p.1 q.1.

(** ** pandas primitives on columns *)

(** [Series.dropna()] *)
Definition dropna {A} (s : list (option A)) : list A := omap id s.

(** [Series.unique()]: distinct values in order of first appearance. *)
Fixpoint unique {A} `{EqDecision A} (l : list A) : list A :=
  match l with
  | [] => []
  | x :: l' => x :: filter (λ y, y ≠ x) (unique l')
  end.

(** [Series.isin(values)], one cell: a NaN cell is in no list of values. *)
Definition isin1 {A} `{EqDecision A} (values : list A) (c : option A) : bool :=
  match c with
  | Some v => bool_decide (v ∈ values)
  | None => false
  end.

(** [Series.isin(values)] *)
Definition isin {A} `{EqDecision A} (s : list (option A)) (values : list A)
    : list bool :=
  isin1 values <$> s.

(** [m1 & m2] on boolean Series *)
Definition mask_and (m1 m2 : list bool) : list bool := zip_with andb m1 m2.

(** [df[mask]]: the rows at which the mask is true, in order. *)
Fixpoint loc_mask {A} (l : list A) (m : list bool) : list A :=
  match l, m with
  | x :: l', b :: m' => if b then x :: loc_mask l' m' else loc_mask l' m'
  | _, _ => []
  end.

(** [df[mask].copy()]: a new frame with the same columns. *)
Definition df_loc (df : DataFrame) (m : list bool) : DataFrame :=
  mkDF (tem_residencia df) (loc_mask (rows df) m).

(** ** Sidebar: selectable domains (app.py 31-39) *)

Definition anos_disponiveis (df : DataFrame) : list Z :=
  ordenar Z_le (unique (dropna (ano <$> rows df))).
Definition senioridades_disponiveis (df : DataFrame) : list string :=
  ordenar str_le (unique (dropna (senioridade <$> rows df))).
Definition contratos_disponiveis (df : DataFrame) : list string :=
  ordenar str_le (unique (dropna (contrato <$> rows df))).
Definition tamanhos_disponiveis (df : DataFrame) : list string :=
  ordenar str_le (unique (dropna (tamanho_empresa <$> rows df))).

(** The value of the four multiselects before the user touches them:
    [default=] is the whole list of options. *)
Definition selecao_padrao (df : DataFrame) : Selecao :=
  mkSel (anos_disponiveis df) (senioridades_disponiveis df)
        (contratos_disponiveis df) (tamanhos_disponiveis df).

(** ** Filtering (app.py 44-49) *)

Definition df_filtrado (df : DataFrame) (sel : Selecao) : DataFrame :=
  df_loc df
    (mask_and
      (mask_and
        (mask_and
          (isin (ano <$> rows df) (anos_selecionados sel))
          (isin (senioridade <$> rows df) (senioridades_selecionadas sel)))
        (isin (contrato <$> rows df) (contratos_selecionados sel)))
      (isin (tamanho_empresa <$> rows df) (tamanhos_selecionados sel))).

(** The two frame variables of the script.  The filtering statement binds
    [df_filtrado] to a fresh copy and leaves [df] as it was. *)
Record Env := mkEnv {
  env_df : DataFrame;
  env_df_filtrado : option DataFrame
}.

Definition exec_filtragem (sel : Selecao) (e : Env) : Env :=
  mkEnv (env_df e) (Some (df_filtrado (env_df e) sel)).

(** ** Specification vocabulary for the filter *)

(** A record satisfies a selection when each of its four filter cells
    holds a value that is a member of the corresponding set. *)
Definition satisfaz (sel : Selecao) (r : Row) : Prop :=
  (∃ a, ano r = Some a ∧ a ∈ anos_selecionados sel) ∧
  (∃ s, senioridade r = Some s ∧ s ∈ senioridades_selecionadas sel) ∧
  (∃ c, contrato r = Some c ∧ c ∈ contratos_selecionados sel) ∧
  (∃ t, tamanho_empresa r = Some t ∧ t ∈ tamanhos_selecionados sel).

(** [subseq_where P l k]: [k] is [l] with exactly the elements that
    satisfy [P] kept, each at its place. *)
Inductive subseq_where {A} (P : A → Prop) : list A → list A → Prop :=
  | sw_nil : subseq_where P [] []
  | sw_keep x l k : P x → subseq_where P l k → subseq_where P (x :: l) (x :: k)
  | sw_skip x l k : ¬ P x → subseq_where P l k → subseq_where P (x :: l) k.

(** The boolean the mask holds at a row. *)
Definition satisfaz_b (sel : Selecao) (r : Row) : bool :=
  isin1 (anos_selecionados sel) (ano r) &&
  isin1 (senioridades_selecionadas sel) (senioridade r) &&
  isin1 (contratos_selecionados sel) (contrato r) &&
  isin1 (tamanhos_selecionados sel) (tamanho_empresa r).

(** ** Errors

    The exceptions the modelled calls can raise; [inl e] is a raised [e]. *)
Inductive Erro := IndexError | ValueError.

Definition Res (A : Type) : Type := Erro + A.

Global Instance res_bind : MBind Res := λ A B k m,
  match m with
  | inl e => inl e
  | inr a => k a
  end.

(** What a panel of the page receives: a warning box, an information box,
    or a chart drawn from a table. *)
Inductive Saida (T : Type) : Type :=
  | Aviso (msg : string)
  | Info (msg : string)
  | Grafico (dados : T).
Arguments Aviso {T} msg.
Arguments Info {T} msg.
Arguments Grafico {T} dados.

(** ** binary64 arithmetic

    A binary64 value is the rational it denotes.  [round64 q] is the
    binary64 value nearest to [q], ties to even, with the gradual underflow
    of the format; an arithmetic operation is the exact operation followed
    by [round64]. *)

Definition Qc_leb (a b : Qc) : bool := bool_decide (a ≤ b)%Qc.

(** [2 ^ e], also for a negative [e]. *)
Definition pot2 (e : Z) : Qc :=
  if (0 <=? e)%Z then Qc_of_Z (2 ^ e) else (/ Qc_of_Z (2 ^ (- e)))%Qc.

(** For [q > 0], the [e] with [2 ^ e ≤ q < 2 ^ (e + 1)]. *)
Definition expoente (q : Qc) : Z :=
  let c := (Z.log2 (Qnum q) - Z.log2 (Zpos (Qden q)))%Z in
  if Qc_leb (pot2 c) q then c else (c - 1)%Z.

(** The integer nearest to [q ≥ 0], the even one when two are as near. *)
Definition meio_par (q : Qc) : Z :=
  let f := Qfloor q in
  let r := (q - Qc_of_Z f)%Qc in
  if Qc_leb r (Q2Qc (1 # 2)) then
    if Qc_leb (Q2Qc (1 # 2)) r then (if Z.even f then f else f + 1)%Z else f
  else (f + 1)%Z.

Definition round64 (q : Qc) : Qc :=
  if decide (q = Qc_of_Z 0) then Qc_of_Z 0
  else
    let a := if Qc_leb (Qc_of_Z 0) q then q else (- q)%Qc in
    let e := Z.max (expoente a - 52) (-1074) in
    let m := (Qc_of_Z (meio_par (a / pot2 e)) * pot2 e)%Qc in
    if Qc_leb (Qc_of_Z 0) q then m else (- m)%Qc.

Definition fadd (a b : Qc) : Qc := round64 (a + b).

Definition fdiv (a b : Qc) : Qc := round64 (a / b).

(** The values added one after the other, from the first. *)
Definition soma64 (l : list Qc) : Qc := fold_left fadd l (Qc_of_Z 0).

(** ** Aggregates over a column *)

(** [Series.mean()] and the mean of a group: NaN cells are skipped, the
    values are taken as binary64, summed and divided by their number; NaN
    when nothing is left.  The sum is written here as the values added in
    frame order.  A group mean is computed by pandas in that order with a
    compensation term, which stays zero as long as no running total needs
    rounding; [Series.mean()] adds the values in blocks, in another order.
    The theorems that give the value of a mean are stated for sums that
    need no rounding, where the order of the additions plays no part. *)
Definition mean (s : list (option Qc)) : option Qc :=
  match dropna s with
  | [] => None
  | v :: vs =>
      Some (fdiv (soma64 (round64 <$> v :: vs))
                 (Qc_of_Z (Z.of_nat (length (v :: vs)))))
  end.

Definition Qc_max (a b : Qc) : Qc := if Qc_leb a b then b else a.

(** [Series.max()]: NaN cells are skipped; NaN when nothing is left. *)
Definition max_skipna (s : list (option Qc)) : option Qc :=
  match dropna s with
  | [] => None
  | v :: vs => Some (foldr Qc_max v vs)
  end.

(** [Series.median()]: NaN cells are skipped and the values taken as
    binary64; the middle value of the sorted values, or the mean of the
    two middle ones. *)
Definition median (s : list (option Qc)) : option Qc :=
  let vs := ordenar Qc_leb (round64 <$> dropna s) in
  let n := length vs in
  if (n =? 0)%nat then None
  else if Nat.odd n then vs !! (n / 2)%nat
  else
    match vs !! (n / 2 - 1)%nat, vs !! (n / 2)%nat with
    | Some a, Some b => Some (fdiv (fadd a b) (Qc_of_Z 2))
    | _, _ => None
    end.

(** Number of cells equal to [v]. *)
Definition contar {A} `{EqDecision A} (v : A) (l : list A) : nat :=
  length (filter (λ x, x = v) l).

(** [Series.value_counts()] over the values [l]: one entry per distinct
    value, most frequent first.  With [dropna=False] the caller passes the
    cells themselves, so that NaN is counted as a value of its own; with
    the default the caller passes [dropna] of the column.  pandas leaves
    the order among equal counts to its sort; here they stay in order of
    first appearance.  Nothing below depends on that order. *)
Definition value_counts {A} `{EqDecision A} (l : list A) : list (A * nat) :=
  ordenar (λ p q, (q.2 <=? p.2)%nat) ((λ v, (v, contar v l)) <$> unique l).

(** [Series.mode()]: NaN cells are dropped; the most frequent values,
    sorted. *)
Definition mode (s : list (option string)) : list string :=
  let vs := dropna s in
  let mx := max_list ((λ v, contar v vs) <$> unique vs) in
  ordenar str_le (filter (λ v, contar v vs = mx) (unique vs)).

(** [Series.iat[i]] *)
Definition iat {A} (l : list A) (i : nat) : Res A :=
  match l !! i with
  | Some x => inr x
  | None => inl IndexError
  end.

(** Orders on aggregated values; NaN is placed last in both directions,
    as [sort_values] and [nlargest] do. *)
Definition asc_nan_last (a b : option Qc) : bool :=
  match a, b with
  | Some x, Some y => Qc_leb x y
  | Some _, None => true
  | None, Some _ => false
  | None, None => true
  end.

Definition desc_nan_last (a b : option Qc) : bool :=
  match a, b with
  | Some x, Some y => Qc_leb y x
  | Some _, None => true
  | None, Some _ => false
  | None, None => true
  end.

(** [Series.sort_values(ascending=True)] on a Series indexed by [K].
    pandas' default sort is not stable: the order it gives to equal values
    is the library's; the model leaves them in the order of the input, and
    nothing below depends on that order. *)
Definition sort_values {K} (s : list (K * option Qc)) : list (K * option Qc) :=
  ordenar (λ p q, asc_nan_last p.2 q.2) s.

(** [Series.nlargest(n)] with [keep="first"]: the entries in decreasing
    order of value, earlier entries first among equal values, cut at [n]. *)
Definition nlargest {K V} (ge : V → V → bool) (n : nat) (s : list (K * V))
    : list (K * V) :=
  take n (ordenar (λ p q, ge p.2 q.2) s).

(** ** Group-by

    [df.groupby(keys)] with the defaults [sort=True, dropna=True]: the
    distinct key values in sorted order, each with its rows in frame order.
    [key r = None] says that a key cell of [r] is NaN. *)
Section groupby.
Context {K : Type} `{EqDecision K} (le : K → K → bool) (key : Row → option K).

Definition group_keys (l : list Row) : list K :=
  ordenar le (unique (dropna (key <$> l))).

Definition group_rows (l : list Row) (k : K) : list Row :=
  filter (λ r, key r = Some k) l.

Definition groupby (l : list Row) : list (K * list Row) :=
  (λ k, (k, group_rows l k)) <$> group_keys l.
End groupby.

(** The aggregation applied to each group. *)
Definition agg {K V} (f : list Row → V) (g : list (K * list Row)) : list (K * V) :=
  (λ p, (p.1, f p.2)) <$> g.

(** Key of a two-column group-by: NaN as soon as one of the cells is. *)
Definition chave2 {A B} (f : Row → option A) (g : Row → option B) (r : Row)
    : option (A * B) :=
  match f r, g r with
  | Some a, Some b => Some (a, b)
  | _, _ => None
  end.

(** The string column named [c]. *)
Definition coluna (c : string) (r : Row) : option string :=
  if decide (c = "senioridade") then senioridade r
  else if decide (c = "contrato") then contrato r
  else if decide (c = "tamanho_empresa") then tamanho_empresa r
  else if decide (c = "cargo") then cargo r
  else if decide (c = "remoto") then remoto r
  else if decide (c = "residencia_iso3") then residencia_iso3 r
  else if decide (c = "residencia") then residencia r
  else None.

(** ** Pivot *)

Record Pivot := mkPivot {
  piv_index : list string;
  piv_columns : list string;
  piv_values : list (list (option Qc))
}.

(** Position of a label. *)
Fixpoint posicao (x : string) (l : list string) : option nat :=
  match l with
  | [] => None
  | y :: l' => if decide (x = y) then Some 0%nat else S <$> posicao x l'
  end.

(** The value the long table holds for the pair, NaN when it has none. *)
Definition procurar (t : list ((string * string) * option Qc)) (s c : string)
    : option Qc :=
  match list_find (λ e, e.1 = (s, c)) t with
  | Some (_, e) => e.2
  | None => None
  end.

(** [t.pivot(index=, columns=, values=)] on the long table [t]; raises
    ValueError when a pair of labels occurs twice. *)
Definition pivot (t : list ((string * string) * option Qc)) : Res Pivot :=
  if decide (NoDup (t.*1)) then
    let idx := ordenar str_le (unique (t.*1.*1)) in
    let cols := ordenar str_le (unique (t.*1.*2)) in
    inr (mkPivot idx cols ((λ s, (λ c, procurar t s c) <$> cols) <$> idx))
  else inl ValueError.

(** The cell at labels [(s, c)]: [None] when the matrix has no such row or
    column, [Some None] for an empty (NaN) cell. *)
Definition celula (p : Pivot) (s c : string) : option (option Qc) :=
  match posicao s (piv_index p), posicao c (piv_columns p) with
  | Some i, Some j =>
      match piv_values p !! i with
      | Some linha => linha !! j
      | None => None
      end
  | _, _ => None
  end.

(** ** KPIs (app.py 62-75)

    [float(...)] leaves the mean, already binary64, as it is, and converts
    the maximum, which for an integer column is an integer. *)

Record Metricas := mkMetricas {
  salario_medio : option Qc;
  salario_maximo : option Qc;
  total_registros : nat;
  cargo_mais_frequente : string
}.

Definition metricas (v : DataFrame) : Res Metricas :=
  if negb (df_empty v) then
    cmf ← (if bool_decide ("cargo" ∈ columns v)
              && negb (bool_decide (mode (cargo <$> rows v) = []))
           then iat (mode (cargo <$> rows v)) 0
           else inr "N/D" : Res string);
    inr (mkMetricas (mean (usd <$> rows v))
           (round64 <$> max_skipna (usd <$> rows v))
           (length (rows v)) cmf)
  else inr (mkMetricas (Some (Qc_of_Z 0)) (Some (Qc_of_Z 0)) 0 "N/D").

(** ** Top titles by mean salary (app.py 92-113, 191-197) *)

Definition media_por_cargo (v : DataFrame) : list (string * option Qc) :=
  agg (λ g, mean (usd <$> g)) (groupby str_le cargo (rows v)).

Definition top_cargos (v : DataFrame) : list (string * option Qc) :=
  sort_values (nlargest desc_nan_last 10 (media_por_cargo v)).

Definition grafico_cargos (v : DataFrame) : Saida (list (string * option Qc)) :=
  if negb (df_empty v) then Grafico (top_cargos v)
  else Aviso "Nenhum dado para exibir no gráfico de cargos.".

Definition top10_cargos (v : DataFrame) : list string :=
  (nlargest desc_nan_last 10 (media_por_cargo v)).*1.

Definition df_box (v : DataFrame) : DataFrame :=
  df_loc v (isin (cargo <$> rows v) (top10_cargos v)).

(** ** Salary histogram (app.py 115-128)

    The script computes no bin: it hands the view, the column name and
    [nbins=30] to [px.histogram], and the figure is binned when drawn. *)
Record Histograma := mkHistograma {
  hist_x : list (option Qc);
  hist_nbins : nat
}.

Definition grafico_hist (v : DataFrame) : Saida Histograma :=
  if negb (df_empty v) then Grafico (mkHistograma (usd <$> rows v) 30)
  else Aviso "Nenhum dado para exibir no gráfico de distribuição.".

(** ** Remote-work counts (app.py 132-148) *)

Definition remoto_contagem (v : DataFrame) : list (option string * nat) :=
  value_counts (remoto <$> rows v).

Definition grafico_remoto (v : DataFrame) : Saida (list (option string * nat)) :=
  if negb (df_empty v) then Grafico (remoto_contagem v)
  else Aviso "Nenhum dado para exibir no gráfico dos tipos de trabalho.".

(** ** Mean salary of "Data Scientist" per country (app.py 150-169) *)

Definition df_ds (v : DataFrame) : DataFrame :=
  df_loc v ((λ c, bool_decide (c = Some "Data Scientist")) <$> (cargo <$> rows v)).

Definition media_ds_pais (v : DataFrame) : list (string * option Qc) :=
  agg (λ g, mean (usd <$> g)) (groupby str_le residencia_iso3 (rows (df_ds v))).

Definition grafico_paises (v : DataFrame) : Saida (list (string * option Qc)) :=
  if negb (df_empty v) then
    if negb (df_empty (df_ds v)) then Grafico (media_ds_pais v)
    else Info "Sem registros de 'Data Scientist' após os filtros."
  else Aviso "Nenhum dado para exibir no gráfico de países.".

(** ** Tabs (app.py 177-339) *)

(** Tab 3, treemap. *)
Definition coluna_pais (v : DataFrame) : string :=
  if bool_decide ("residencia" ∈ columns v) then "residencia"
  else "residencia_iso3".

Definition df_treemap (v : DataFrame) : list ((string * string) * option Qc) :=
  agg (λ g, mean (usd <$> g))
    (groupby (par_le str_le str_le)
       (chave2 (coluna (coluna_pais v)) (coluna "cargo")) (rows v)).

(** Tab 4, sunburst. *)
Definition df_sun (v : DataFrame) : list ((string * string) * nat) :=
  agg length
    (groupby (par_le str_le str_le)
       (chave2 (coluna "senioridade") (coluna "contrato")) (rows v)).

(** Tab 5, heatmap. *)
Definition media_sen_contrato (v : DataFrame)
    : list ((string * string) * option Qc) :=
  agg (λ g, mean (usd <$> g))
    (groupby (par_le str_le str_le)
       (chave2 (coluna "senioridade") (coluna "contrato")) (rows v)).

Definition piv (v : DataFrame) : Res Pivot := pivot (media_sen_contrato v).

(** Tab 6, line chart. *)
Definition top5_cargos (v : DataFrame) : list string :=
  (nlargest (λ a b, (b <=? a)%nat) 5
     (value_counts (dropna (cargo <$> rows v)))).*1.

(** [df_filtrado[df_filtrado["cargo"].isin(top5_cargos)]] *)
Definition linhas_top5 (v : DataFrame) : list Row :=
  loc_mask (rows v) (isin (cargo <$> rows v) (top5_cargos v)).

(** [.groupby(["ano", "cargo"], as_index=False)["usd"].median()] *)
Definition mediana_ano_cargo (l : list Row) : list ((Z * string) * option Qc) :=
  agg (λ g, median (usd <$> g))
    (groupby (par_le Z_le str_le) (chave2 ano (coluna "cargo")) l).

Definition df_linha (v : DataFrame) : list ((Z * string) * option Qc) :=
  mediana_ano_cargo (linhas_top5 v).

(** Tab 7, animated map.  [cargo_sel] is what the select box returns: one
    of [cargos_disp], the first one until the user picks another. *)
Definition cargos_disp (v : DataFrame) : list string :=
  ordenar str_le (unique (dropna (cargo <$> rows v))).

(** [df_filtrado[df_filtrado["cargo"] == cargo_sel]] *)
Definition linhas_cargo (v : DataFrame) (cargo_sel : string) : list Row :=
  loc_mask (rows v)
    ((λ c, bool_decide (c = Some cargo_sel)) <$> (cargo <$> rows v)).

(** [.groupby(["ano", "residencia_iso3"], as_index=False)["usd"].mean()
     .sort_values(["ano", "residencia_iso3"])] *)
Definition media_ano_pais (l : list Row) : list ((Z * string) * option Qc) :=
  ordenar (λ p q, par_le Z_le str_le p.1 q.1)
    (agg (λ g, mean (usd <$> g))
       (groupby (par_le Z_le str_le) (chave2 ano (coluna "residencia_iso3")) l)).

Definition df_anim (v : DataFrame) (cargo_sel : string)
    : list ((Z * string) * option Qc) :=
  media_ano_pais (linhas_cargo v cargo_sel).

Definition aba7 (v : DataFrame) (escolha : list string → string)
    : Saida (list ((Z * string) * option Qc)) :=
  match cargos_disp v with
  | [] => Aviso "Não há cargos disponíveis após os filtros."
  | opcoes =>
      let t := df_anim v (escolha opcoes) in
      if bool_decide (t = []) then
        Aviso "Não há dados suficientes para o cargo selecionado."
      else Grafico t
  end.

(** The tabs are built only for a non-empty view. *)
Record Abas := mkAbas {
  aba1 : DataFrame;
  aba2 : DataFrame;
  aba3 : list ((string * string) * option Qc);
  aba4 : list ((string * string) * nat);
  aba5 : Res Pivot;
  aba6 : list ((Z * string) * option Qc);
  aba7_mapa : Saida (list ((Z * string) * option Qc))
}.

Definition modelos_adicionais (v : DataFrame) (escolha : list string → string)
    : Saida Abas :=
  if df_empty v then
    Info "Nenhum dado com os filtros atuais para exibir nos modelos adicionais."
  else
    Grafico (mkAbas (df_box v) v (df_treemap v) (df_sun v) (piv v) (df_linha v)
               (aba7 v escolha)).

(** ** The example of the specification *)

Definition registro (a : Z) (titulo pais : string) (salario : Z) : Row :=
  mkRow (Some a) (Some "senior") (Some "integral") (Some "M") (Some titulo)
        (Some (Qc_of_Z salario)) (Some "remoto") (Some pais) None.

Definition exemplo : DataFrame :=
  mkDF false
    [ registro 2023 "Data Scientist" "USA" 100000;
      registro 2023 "Data Scientist" "USA" 200000;
      registro 2024 "Analyst" "BRA" 50000 ].

(** A frame with the display-name column and with missing cells. *)
Definition exemplo_faltantes : DataFrame :=
  mkDF true
    [ mkRow (Some 2023%Z) (Some "senior") (Some "integral") (Some "M")
            (Some "Data Scientist") (Some (Qc_of_Z 100000)) (Some "remoto")
            (Some "USA") (Some "United States");
      mkRow (Some 2023%Z) (Some "junior") (Some "parcial") (Some "M")
            None (Some (Qc_of_Z 40000)) None (Some "BRA") (Some "Brazil");
      mkRow (Some 2024%Z) None (Some "integral") (Some "L")
            (Some "Analyst") (Some (Qc_of_Z 50000)) (Some "presencial") None None;
      mkRow (Some 2024%Z) (Some "senior") (Some "integral") (Some "L")
            (Some "Analyst") None (Some "presencial") (Some "BRA") (Some "Brazil") ].

(** Three records of one title with a salary of one tenth. *)
Definition tres_decimos : DataFrame :=
  mkDF false
    (replicate 3
       (mkRow (Some 2023%Z) (Some "senior") (Some "integral") (Some "M")
              (Some "Analyst") (Some (Q2Qc (1 # 10))) (Some "remoto")
              (Some "BRA") None)).

(** A frame with twelve titles, two of them with the same mean. *)
Definition doze_cargos : DataFrame :=
  mkDF false
    ((λ p : string * Z, registro 2023 p.1 "USA" p.2) <$>
       [("a", 3000); ("b", 12000); ("c", 1000); ("d", 7000); ("e", 5000);
        ("f", 11000); ("g", 2000); ("h", 9000); ("i", 4000); ("j", 10000);
        ("k", 8000); ("l", 6000); ("a", 5000)]%Z).

(** ** Specification vocabulary for the aggregations *)

(** [t] is the table of the aggregate [f] per value of [key] over [l]:
    one line per key value carried by some record, holding [f] of exactly
    the records that carry it. *)
Definition agregado_por {K V} `{EqDecision K} (key : Row → option K)
    (f : list Row → V) (l : list Row) (t : list (K * V)) : Prop :=
  NoDup (t.*1) ∧
  ∀ k x, (k, x) ∈ t ↔
    (∃ r, r ∈ l ∧ key r = Some k) ∧ x = f (filter (λ r, key r = Some k) l).

(** The exact sum and the exact mean of a list of values. *)
Definition soma (l : list Qc) : Qc := foldr Qcplus (Qc_of_Z 0) l.

Definition media (l : list Qc) : Qc :=
  (soma l / Qc_of_Z (Z.of_nat (length l)))%Qc.

(** The salaries of the records of [l] that satisfy [P], in frame order,
    missing ones left out. *)
Definition salarios (P : Row → Prop) `{∀ r, Decision (P r)} (l : list Row)
    : list Qc :=
  dropna (usd <$> filter P l).

(** [x] is a binary64 value. *)
Definition representavel (x : Qc) : Prop := round64 x = x.

(** Summing [vals] needs no rounding: every value is binary64 and so is
    every running total. *)
Definition somas_exatas (vals : list Qc) : Prop :=
  Forall representavel vals ∧ ∀ k, representavel (soma (take k vals)).

(** Whole non-negative numbers with a total below [2 ^ 53]: whatever the
    order in which they are added, no partial sum needs rounding. *)
Definition inteiros_limitados (vals : list Qc) : Prop :=
  ∃ zs : list Z, vals = Qc_of_Z <$> zs ∧ Forall (λ z, (0 ≤ z)%Z) zs ∧
                 (foldr Z.add 0%Z zs < 2 ^ 53)%Z.

(** The binary64 mean of [vals]: NaN without values, otherwise their
    exact mean rounded once. *)
Definition media_f64 (vals : list Qc) : option Qc :=
  match vals with
  | [] => None
  | _ => Some (round64 (media vals))
  end.

(** Whole numbers from 0 to below [b]. *)
Definition inteiros_abaixo_de (b : Z) (vals : list Qc) : Prop :=
  Forall (λ x, ∃ z, x = Qc_of_Z z ∧ (0 ≤ z < b)%Z) vals.

(** [y] is the value at position [k], counted from 0, of [l] put in
    ascending order: a value of [l] with at most [k] values of [l] below
    it and more than [k] values of [l] at most equal to it. *)
Definition na_posicao (k : nat) (l : list Qc) (y : Qc) : Prop :=
  y ∈ l ∧ (length (filter (λ x, (x < y)%Qc) l) ≤ k)%nat ∧
          (k < length (filter (λ x, (x ≤ y)%Qc) l))%nat.

(** [m] is the median of [vals]: half the sum of the two middle values,
    which are one and the same value when the number of values is odd. *)
Definition mediana_de (vals : list Qc) (m : Qc) : Prop :=
  ∃ lo hi, na_posicao ((length vals - 1) / 2) vals lo ∧
           na_posicao (length vals / 2) vals hi ∧
           m = ((lo + hi) / Qc_of_Z 2)%Qc.

(** [m] is the binary64 median of [vals]: the middle value when their
    number is odd, otherwise the sum of the two middle values, rounded,
    divided by 2, rounded. *)
Definition mediana_f64 (vals : list Qc) (m : Qc) : Prop :=
  ∃ lo hi, na_posicao ((length vals - 1) / 2) vals lo ∧
           na_posicao (length vals / 2) vals hi ∧
           m = if Nat.odd (length vals) then hi
               else fdiv (fadd lo hi) (Qc_of_Z 2).

(** The frame without the records whose key is missing. *)
Definition sem_faltantes {K} (key : Row → option K) (l : list Row) : list Row :=
  filter (λ r, is_Some (key r)) l.

(** The same for a pair of key columns [f], [g]: one line per pair of
    values carried together by some record. *)
Definition agregado_por_par {A B V} `{EqDecision A, EqDecision B}
    (f : Row → option A) (g : Row → option B)
    (h : list Row → V) (l : list Row) (t : list ((A * B) * V)) : Prop :=
  NoDup (t.*1) ∧
  ∀ a b x, ((a, b), x) ∈ t ↔
    (∃ r, r ∈ l ∧ f r = Some a ∧ g r = Some b) ∧
    x = h (filter (λ r, f r = Some a ∧ g r = Some b) l).

(** The view without the records whose key is missing. *)
Definition vista_sem_faltantes {K} (key : Row → option K) (v : DataFrame)
    : DataFrame :=
  mkDF (tem_residencia v) (sem_faltantes key (rows v)).

(** Some record of the view carries seniority [s] together with contract
    [c]. *)
Definition par_presente (v : DataFrame) (s c : string) : Prop :=
  ∃ r, r ∈ rows v ∧ senioridade r = Some s ∧ contrato r = Some c.

(** [nao_menor a b]: the mean [a] ranks at least as high as [b], that is
    [b ≤ a], a missing mean (NaN) ranking below every number. *)
Definition nao_menor (a b : option Qc) : Prop :=
  match a, b with
  | Some x, Some y => (y ≤ x)%Qc
  | _, None => True
  | None, Some _ => False
  end.

(** [crescente a b]: [a] may stand before [b] in ascending order, where a
    missing mean (NaN) comes after every number. *)
Definition crescente (a b : option Qc) : Prop :=
  match a, b with
  | Some x, Some y => (x ≤ y)%Qc
  | _, None => True
  | None, Some _ => False
  end.

(** [l] is in ascending order for [le] and holds no value twice. *)
Definition crescente_sem_repetir {A} (le : A → A → bool) (l : list A) : Prop :=
  StronglySorted (λ a b, le a b = true) l ∧ NoDup l.

(** Every set of [s] is contained in the corresponding set of [s']. *)
Definition sel_incluida (s s' : Selecao) : Prop :=
  anos_selecionados s ⊆ anos_selecionados s' ∧
  senioridades_selecionadas s ⊆ senioridades_selecionadas s' ∧
  contratos_selecionados s ⊆ contratos_selecionados s' ∧
  tamanhos_selecionados s ⊆ tamanhos_selecionados s'.

(** Number of records of the view with title [t]. *)
Definition ocorrencias (t : string) (v : DataFrame) : nat :=
  length (filter (λ r, cargo r = Some t) (rows v)).

(** A record with a value in each of the four filter columns. *)
Definition completo (r : Row) : Prop :=
  is_Some (ano r) ∧ is_Some (senioridade r) ∧ is_Some (contrato r) ∧
  is_Some (tamanho_empresa r).

Global Instance completo_dec r : Decision (completo r).
Proof. unfold completo. apply _. Defined.

(** ** Lemmas: sorting *)
Section ordenacao_lemmas.
Context {A : Type} (le : A → A → bool).

Lemma inserir_Permutation x l : inserir le x l ≡ₚ x :: l.
Proof.
  induction l as [|y l IH]; simpl; [done|].
  destruct (le x y); [done|]. rewrite IH. apply Permutation_swap.
Qed.

Lemma ordenar_Permutation l : ordenar le l ≡ₚ l.
Proof.
  induction l as [|x l IH]; simpl; [done|].
  by rewrite inserir_Permutation, IH.
Qed.

Lemma elem_of_ordenar x l : x ∈ ordenar le l ↔ x ∈ l.
Proof. by rewrite ordenar_Permutation. Qed.

Lemma NoDup_ordenar l : NoDup (ordenar le l) ↔ NoDup l.
Proof. by rewrite ordenar_Permutation. Qed.

Lemma length_ordenar l : length (ordenar le l) = length l.
Proof. by rewrite ordenar_Permutation. Qed.

Context (le_total : ∀ x y, le x y = false → le y x = true).
Context (le_trans : ∀ x y z, le x y = true → le y z = true → le x z = true).

Lemma inserir_StronglySorted x l :
  StronglySorted (λ a b, le a b = true) l →
  StronglySorted (λ a b, le a b = true) (inserir le x l).
Proof.
  induction 1 as [|y l Hl IH Hy]; simpl.
  - repeat constructor.
  - destruct (le x y) eqn:Hxy.
    + constructor; [by constructor|].
      constructor; [done|].
      eapply Forall_impl; [exact Hy|]. intros z Hz. by eapply le_trans.
    + constructor; [done|].
      rewrite inserir_Permutation. constructor; [|done]. by apply le_total.
Qed.

Lemma ordenar_StronglySorted l :
  StronglySorted (λ a b, le a b = true) (ordenar le l).
Proof.
  induction l as [|x l IH]; simpl; [constructor|].
  by apply inserir_StronglySorted.
Qed.
End ordenacao_lemmas.

(** ** Lemmas: binary64 *)

Lemma this_Qc_of_Z z : this (Qc_of_Z z) = inject_Z z.
Proof. reflexivity. Qed.

Lemma meio_par_inteiro n : meio_par (Qc_of_Z n) = n.
Proof.
  unfold meio_par. rewrite this_Qc_of_Z, Qfloor_Z.
  assert ((Qc_of_Z n - Qc_of_Z n)%Qc = Qc_of_Z 0) as ->.
  { unfold Qcminus. rewrite Qcplus_opp_r. by rewrite Z2Qc_inj_0. }
  reflexivity.
Qed.

Lemma pot2_nonpos e : (e ≤ 0)%Z → pot2 e = (/ Qc_of_Z (2 ^ (- e)))%Qc.
Proof.
  intros He. unfold pot2. destruct (0 <=? e)%Z eqn:H0; [|done].
  apply Z.leb_le in H0. assert (e = 0%Z) as -> by lia.
  apply Qc_is_canon. reflexivity.
Qed.

Lemma Qc_of_Z_pow2_neq_0 k : (0 ≤ k)%Z → Qc_of_Z (2 ^ k) ≠ Qc_of_Z 0.
Proof. intros Hk Heq. apply Z2Qc_inj in Heq. lia. Qed.

Lemma expoente_inteiro z : (0 < z)%Z → expoente (Qc_of_Z z) = Z.log2 z.
Proof.
  intros Hz. unfold expoente. rewrite this_Qc_of_Z. simpl Qnum. simpl Qden.
  change (Z.log2 1) with 0%Z. rewrite Z.sub_0_r.
  assert (Qc_leb (pot2 (Z.log2 z)) (Qc_of_Z z) = true) as ->; [|done].
  apply bool_decide_eq_true. unfold pot2.
  pose proof (Z.log2_nonneg z) as Hl.
  rewrite (proj2 (Z.leb_le _ _) Hl).
  apply (proj1 (Z2Qc_inj_le _ _)). by apply Z.log2_spec.
Qed.

(** A whole number below [2 ^ 53] is a binary64 value. *)
Lemma round64_inteiro z :
  (0 ≤ z < 2 ^ 53)%Z → round64 (Qc_of_Z z) = Qc_of_Z z.
Proof.
  intros [Hz0 Hz]. unfold round64.
  destruct (decide (Qc_of_Z z = Qc_of_Z 0)) as [Heq|Hne]; [by rewrite Heq|].
  assert (0 < z)%Z as Hpos.
  { destruct (decide (z = 0%Z)) as [->|]; [done|lia]. }
  assert (Qc_leb (Qc_of_Z 0) (Qc_of_Z z) = true) as ->.
  { apply bool_decide_eq_true, (proj1 (Z2Qc_inj_le _ _)). lia. }
  rewrite expoente_inteiro by done.
  assert (Z.log2 z < 53)%Z as Hlog by (by apply Z.log2_lt_pow2).
  rewrite Z.max_l by (pose proof (Z.log2_nonneg z); lia).
  rewrite pot2_nonpos by lia.
  set (k := (- (Z.log2 z - 52))%Z).
  assert (0 ≤ k)%Z as Hk by (unfold k; lia).
  assert ((Qc_of_Z z / / Qc_of_Z (2 ^ k))%Qc = Qc_of_Z (z * 2 ^ k)) as ->.
  { rewrite Z2Qc_inj_mul. field. rewrite <- Z2Qc_inj_0.
    split; [by apply Qc_of_Z_pow2_neq_0|]. intros H1. by apply Q_apart_0_1. }
  rewrite meio_par_inteiro, Z2Qc_inj_mul, <- Qcmult_assoc.
  rewrite Qcmult_inv_r; [apply Qcmult_1_r|].
  rewrite <- Z2Qc_inj_0. by apply Qc_of_Z_pow2_neq_0.
Qed.

Lemma soma_app l k : soma (l ++ k) = (soma l + soma k)%Qc.
Proof.
  induction l as [|x l IH]; simpl.
  - by rewrite Z2Qc_inj_0, Qcplus_0_l.
  - by rewrite IH, Qcplus_assoc.
Qed.

Lemma soma64_prefixos (l pre : list Qc) :
  (∀ k, representavel (soma (pre ++ take k l))) →
  fold_left fadd l (soma pre) = soma (pre ++ l).
Proof.
  revert pre. induction l as [|x l IH]; intros pre Hrep; simpl.
  - by rewrite app_nil_r.
  - assert (fadd (soma pre) x = soma (pre ++ [x])) as ->.
    { unfold fadd. specialize (Hrep 1%nat). simpl in Hrep.
      rewrite soma_app in Hrep |- *. simpl in Hrep |- *.
      by rewrite Z2Qc_inj_0, Qcplus_0_r in Hrep |- *. }
    rewrite IH.
    + by rewrite <- app_assoc.
    + intros k. specialize (Hrep (S k)). simpl in Hrep.
      by rewrite <- app_assoc.
Qed.

Lemma soma64_exata vals :
  (∀ k, representavel (soma (take k vals))) → soma64 vals = soma vals.
Proof. intros Hrep. by apply (soma64_prefixos vals []). Qed.

Lemma fmap_round64_representavel vals :
  Forall representavel vals → round64 <$> vals = vals.
Proof. induction 1 as [|x l Hx _ IH]; csimpl; [done|]. by rewrite Hx, IH. Qed.

(** Without rounding in the sum, the mean is the exact mean rounded once. *)
Lemma mean_exato s : somas_exatas (dropna s) → mean s = media_f64 (dropna s).
Proof.
  intros [Hvals Hpre]. unfold mean, media_f64.
  destruct (dropna s) as [|v vs]; [done|].
  rewrite fmap_round64_representavel, soma64_exata by done. done.
Qed.

Lemma soma_inteiros zs : soma (Qc_of_Z <$> zs) = Qc_of_Z (foldr Z.add 0%Z zs).
Proof.
  induction zs as [|z zs IH]; csimpl; [done|].
  by rewrite Z2Qc_inj_add, <- IH.
Qed.

Lemma foldr_add_nonneg zs :
  Forall (λ z, (0 ≤ z)%Z) zs → (0 ≤ foldr Z.add 0 zs)%Z.
Proof. induction 1; simpl; lia. Qed.

Lemma foldr_add_take_le zs k :
  Forall (λ z, (0 ≤ z)%Z) zs →
  (foldr Z.add 0 (take k zs) ≤ foldr Z.add 0 zs)%Z.
Proof.
  intros Hz. revert k. induction Hz as [|z zs Hz0 Hz IH]; intros [|k]; simpl;
    try lia.
  - pose proof (foldr_add_nonneg zs Hz). lia.
  - specialize (IH k). lia.
Qed.

Lemma foldr_add_elem_le zs z :
  Forall (λ z, (0 ≤ z)%Z) zs → z ∈ zs → (z ≤ foldr Z.add 0 zs)%Z.
Proof.
  induction 1 as [|y zs Hy Hz IH]; intros Hin; [by apply elem_of_nil in Hin|].
  simpl. pose proof (foldr_add_nonneg zs Hz).
  apply elem_of_cons in Hin as [->|Hin]; [lia|]. specialize (IH Hin). lia.
Qed.

Lemma inteiros_somas_exatas vals : inteiros_limitados vals → somas_exatas vals.
Proof.
  intros (zs & -> & Hnn & Hlim). split.
  - apply Forall_fmap, Forall_forall. intros z Hz. simpl.
    apply round64_inteiro. rewrite Forall_forall in Hnn.
    pose proof (Hnn z Hz). rewrite <- Forall_forall in Hnn.
    pose proof (foldr_add_elem_le zs z Hnn Hz). lia.
  - intros k. unfold representavel. rewrite <- fmap_take, soma_inteiros.
    apply round64_inteiro.
    pose proof (foldr_add_take_le zs k Hnn).
    pose proof (foldr_add_nonneg (take k zs)) as H0.
    split; [|lia]. apply H0. by apply Forall_take.
Qed.

Lemma inteiros_media_f64 s :
  inteiros_limitados (dropna s) → mean s = media_f64 (dropna s).
Proof. intros H. by apply mean_exato, inteiros_somas_exatas. Qed.

Lemma Qc_of_Z_2_neq_0 : Qc_of_Z 2 ≠ 0%Qc.
Proof. rewrite <- Z2Qc_inj_0. intros H. by apply Z2Qc_inj in H. Qed.

Lemma Qc_of_Z_pow2_S k :
  (0 ≤ k)%Z → Qc_of_Z (2 ^ (k + 1)) = (Qc_of_Z 2 * Qc_of_Z (2 ^ k))%Qc.
Proof.
  intros Hk. rewrite <- Z2Qc_inj_mul. f_equal. rewrite Z.pow_add_r by lia. lia.
Qed.

Lemma this_metade z :
  Z.odd z = true → this (Qc_of_Z z / Qc_of_Z 2)%Qc = (z # 2).
Proof.
  intros Hodd.
  change (this (Qc_of_Z z / Qc_of_Z 2)%Qc) with (Qred (inject_Z z * (1 # 2))).
  unfold Qmult, inject_Z. simpl Qnum. simpl Qden. rewrite Z.mul_1_r.
  apply Qred_identity. simpl Qnum. change (QDen (z # 1 * 2)) with 2%Z.
  apply Z.odd_spec in Hodd as [k ->].
  rewrite Z.gcd_comm. replace (2 * k + 1)%Z with (1 + k * 2)%Z by lia.
  by rewrite Z.gcd_add_mult_diag_r.
Qed.

(** Half a whole number below [2 ^ 53] is a binary64 value. *)
Lemma round64_metade z :
  (0 ≤ z < 2 ^ 53)%Z →
  round64 (Qc_of_Z z / Qc_of_Z 2) = (Qc_of_Z z / Qc_of_Z 2)%Qc.
Proof.
  intros [Hz0 Hz]. destruct (Z.odd z) eqn:Hodd.
  2:{ rewrite <- Z.negb_even in Hodd.
      apply negb_false_iff, Z.even_spec in Hodd as [k ->].
      assert ((Qc_of_Z (2 * k) / Qc_of_Z 2)%Qc = Qc_of_Z k) as ->.
      { rewrite Z2Qc_inj_mul. field. exact Qc_of_Z_2_neq_0. }
      apply round64_inteiro. lia. }
  assert (0 < z)%Z as Hpos.
  { destruct (decide (z = 0%Z)) as [->|]; [done|lia]. }
  pose proof (Z.log2_nonneg z) as Hl0.
  assert (Z.log2 z < 53)%Z as Hlog by (by apply Z.log2_lt_pow2).
  pose proof (Z.log2_spec z Hpos) as [Hlo _].
  set (q := (Qc_of_Z z / Qc_of_Z 2)%Qc).
  assert (Qc_of_Z 0 < / Qc_of_Z 2)%Qc as Hhalf by done.
  assert (Qc_of_Z 0 < q)%Qc as Hq.
  { unfold q, Qcdiv. rewrite Z2Qc_inj_0, <- (Qcmult_0_l (/ Qc_of_Z 2)).
    apply Qcmult_lt_compat_r; [done|]. apply (proj1 (Z2Qc_inj_lt _ _)). lia. }
  unfold round64.
  destruct (decide (q = Qc_of_Z 0)) as [Heq|_].
  { rewrite Heq in Hq. by apply Qclt_not_eq in Hq. }
  assert (Qc_leb (Qc_of_Z 0) q = true) as ->
    by (apply bool_decide_eq_true; by apply Qclt_le_weak).
  assert (expoente q = (Z.log2 z - 1)%Z) as ->.
  { assert (this q = z # 2) as Hthis by (by apply this_metade).
    unfold expoente. rewrite Hthis.
    simpl Qnum. simpl Qden. change (Z.log2 2) with 1%Z.
    assert (Qc_leb (pot2 (Z.log2 z - 1)) q = true) as ->; [|done].
    apply bool_decide_eq_true.
    assert (pot2 (Z.log2 z - 1) = (Qc_of_Z (2 ^ Z.log2 z) / Qc_of_Z 2)%Qc) as ->.
    { destruct (decide (Z.log2 z = 0%Z)) as [->|Hne].
      - apply (bool_decide_unpack _). by vm_compute.
      - unfold pot2. rewrite (proj2 (Z.leb_le _ _)) by lia.
        replace (Z.log2 z) with (Z.log2 z - 1 + 1)%Z at 2 by lia.
        rewrite Qc_of_Z_pow2_S by lia. field. exact Qc_of_Z_2_neq_0. }
    unfold q, Qcdiv. apply Qcmult_le_compat_r; [|by apply Qclt_le_weak].
    by apply (proj1 (Z2Qc_inj_le _ _)). }
  rewrite Z.max_l by lia.
  rewrite pot2_nonpos by lia.
  set (k := (52 - Z.log2 z)%Z).
  replace (- (Z.log2 z - 1 - 52))%Z with (k + 1)%Z by (unfold k; lia).
  assert (0 ≤ k)%Z as Hk by (unfold k; lia).
  rewrite Qc_of_Z_pow2_S by done.
  pose proof (Qc_of_Z_pow2_neq_0 k Hk) as Hk0.
  pose proof Qc_of_Z_2_neq_0 as H20.
  rewrite Z2Qc_inj_0 in Hk0.
  assert ((q / / (Qc_of_Z 2 * Qc_of_Z (2 ^ k)))%Qc = Qc_of_Z (z * 2 ^ k)) as ->.
  { unfold q. rewrite Z2Qc_inj_mul. field. done. }
  rewrite meio_par_inteiro, Z2Qc_inj_mul. unfold q. field. done.
Qed.

Lemma metade_do_dobro (h : Qc) : ((h + h) / Qc_of_Z 2)%Qc = h.
Proof.
  assert (Qc_of_Z 2 = 1 + 1)%Qc as ->
    by (apply (bool_decide_unpack _); by vm_compute).
  field. done.
Qed.

Lemma inteiros_abaixo_de_representavel vals :
  inteiros_abaixo_de (2 ^ 52) vals → round64 <$> vals = vals.
Proof.
  intros H. apply fmap_round64_representavel.
  eapply Forall_impl; [exact H|]. intros x (z & -> & Hz). simpl.
  apply round64_inteiro. lia.
Qed.

Lemma Qfloor_Qc_le (x : Qc) : (Qc_of_Z (Qfloor x) ≤ x)%Qc.
Proof. unfold Qcle. rewrite this_Qc_of_Z. apply Qfloor_le. Qed.

Lemma meio_par_limites (x : Qc) :
  (Qfloor x ≤ meio_par x)%Z ∧ ∀ N, (x ≤ Qc_of_Z N)%Qc → (meio_par x ≤ N)%Z.
Proof.
  pose proof (Qfloor_Qc_le x) as Hf.
  assert (∀ N, (x ≤ Qc_of_Z N)%Qc → (Qfloor x ≤ N)%Z) as Hle.
  { intros N HN. apply Z2Qc_inj_le. by etrans. }
  assert (∀ N, (Q2Qc (1 # 2) ≤ x - Qc_of_Z (Qfloor x))%Qc →
               (x ≤ Qc_of_Z N)%Qc → (Qfloor x + 1 ≤ N)%Z) as Hlt.
  { intros N Hr HN.
    assert (Qfloor x < N)%Z; [|lia]. apply Z2Qc_inj_lt.
    eapply Qclt_le_trans; [|exact HN].
    apply (Qcplus_lt_mono_r _ _ (- Qc_of_Z (Qfloor x))).
    rewrite Qcplus_opp_r. eapply Qclt_le_trans; [|exact Hr]. done. }
  unfold meio_par.
  destruct (Qc_leb (x - Qc_of_Z (Qfloor x)) (Q2Qc (1 # 2))) eqn:H1.
  - destruct (Qc_leb (Q2Qc (1 # 2)) (x - Qc_of_Z (Qfloor x))) eqn:H2.
    + apply bool_decide_eq_true in H2.
      destruct (Z.even (Qfloor x)); (split; [lia|]); intros N HN;
        [by apply Hle|by apply Hlt].
    + split; [lia|]. exact Hle.
  - split; [lia|]. intros N HN. apply Hlt; [|done].
    apply bool_decide_eq_false in H1. apply Qcnot_le_lt in H1.
    by apply Qclt_le_weak.
Qed.

Lemma pot2_mono c : (53 ≤ c)%Z → (Qc_of_Z (2 ^ 53) ≤ pot2 c)%Qc.
Proof.
  intros Hc. unfold pot2. rewrite (proj2 (Z.leb_le _ _)) by lia.
  apply (proj1 (Z2Qc_inj_le _ _)). apply Z.pow_le_mono_r; lia.
Qed.

Lemma expoente_le q :
  (0 < q)%Qc → (q < Qc_of_Z (2 ^ 53))%Qc → (expoente q ≤ 52)%Z.
Proof.
  intros Hq0 Hq. unfold expoente.
  set (c := (Z.log2 (Qnum q) - Z.log2 (Z.pos (Qden q)))%Z).
  destruct (Qc_leb (pot2 c) q) eqn:Ht.
  - apply bool_decide_eq_true in Ht.
    destruct (decide (53 ≤ c)%Z) as [Hc|Hc]; [|lia].
    pose proof (pot2_mono c Hc) as Hp.
    assert (q < q)%Qc as Hqq.
    { eapply Qclt_le_trans; [exact Hq|]. by etrans. }
    by apply Qclt_not_eq in Hqq.
  - assert (c ≤ 53)%Z; [|lia]. unfold c.
    assert (0 < Qnum q)%Z as Hn.
    { unfold Qclt, Qlt in Hq0. simpl in Hq0. lia. }
    assert (Qnum q < 2 ^ 53 * Z.pos (Qden q))%Z as Hlt.
    { unfold Qclt in Hq. rewrite this_Qc_of_Z in Hq. unfold Qlt in Hq.
      simpl in Hq. lia. }
    assert (Z.log2 (Qnum q) ≤ Z.log2 (Z.pos (Qden q) * 2 ^ 53))%Z as Hlog
      by (apply Z.log2_le_mono; lia).
    rewrite Z.log2_mul_pow2 in Hlog by lia. lia.
Qed.

(** Rounding does not cross a whole number below [2 ^ 53]. *)
Lemma round64_entre q a b :
  (0 ≤ a)%Z → (b < 2 ^ 53)%Z →
  (Qc_of_Z a ≤ q)%Qc → (q ≤ Qc_of_Z b)%Qc →
  (Qc_of_Z a ≤ round64 q)%Qc ∧ (round64 q ≤ Qc_of_Z b)%Qc.
Proof.
  intros Ha Hb Haq Hqb.
  assert (Qc_of_Z 0 ≤ q)%Qc as Hq0.
  { etrans; [|exact Haq]. by apply (proj1 (Z2Qc_inj_le _ _)). }
  unfold round64.
  destruct (decide (q = Qc_of_Z 0)) as [Heq|Hne]; [by rewrite <- Heq|].
  assert (Qc_leb (Qc_of_Z 0) q = true) as -> by (by apply bool_decide_eq_true).
  assert (Qc_of_Z 0 < q)%Qc as Hpos.
  { apply Qcle_lt_or_eq in Hq0 as [|Heq]; [done|]. by destruct Hne. }
  assert (expoente q ≤ 52)%Z as He.
  { apply expoente_le; [by rewrite <- Z2Qc_inj_0|].
    eapply Qcle_lt_trans; [exact Hqb|]. by apply (proj1 (Z2Qc_inj_lt _ _)). }
  set (e := Z.max (expoente q - 52) (-1074)).
  assert (e ≤ 0)%Z as He0 by (unfold e; lia).
  rewrite (pot2_nonpos e He0).
  set (k := (- e)%Z). assert (0 ≤ k)%Z as Hk by (unfold k; lia).
  pose proof (Qc_of_Z_pow2_neq_0 k Hk) as Hk0. rewrite Z2Qc_inj_0 in Hk0.
  assert (0 < Qc_of_Z (2 ^ k))%Qc as Hkpos.
  { rewrite <- Z2Qc_inj_0. apply (proj1 (Z2Qc_inj_lt _ _)). lia. }
  assert ((q / / Qc_of_Z (2 ^ k))%Qc = (q * Qc_of_Z (2 ^ k))%Qc) as ->
    by (field; split; [done|by apply Q_apart_0_1]).
  destruct (meio_par_limites (q * Qc_of_Z (2 ^ k))) as [Hlo Hhi].
  assert (∀ x y : Qc, (x ≤ y * Qc_of_Z (2 ^ k))%Qc ↔
                      (x * / Qc_of_Z (2 ^ k) ≤ y)%Qc) as Hdiv.
  { intros x y. rewrite (Qcmult_le_mono_pos_r _ y (Qc_of_Z (2 ^ k))) by done.
    rewrite <- Qcmult_assoc, Qcmult_inv_l, Qcmult_1_r by done. done. }
  assert (∀ x y : Qc, (x * Qc_of_Z (2 ^ k) ≤ y)%Qc ↔
                      (x ≤ y * / Qc_of_Z (2 ^ k))%Qc) as Hdiv'.
  { intros x y. rewrite (Qcmult_le_mono_pos_r x _ (Qc_of_Z (2 ^ k))) by done.
    rewrite <- Qcmult_assoc, Qcmult_inv_l, Qcmult_1_r by done. done. }
  split.
  - apply Hdiv'. rewrite <- Z2Qc_inj_mul. apply (proj1 (Z2Qc_inj_le _ _)).
    etrans; [|exact Hlo].
    assert (Qfloor (Qc_of_Z (a * 2 ^ k)) ≤ Qfloor (q * Qc_of_Z (2 ^ k))%Qc)%Z as H.
    { apply Qfloor_resp_le. change (Qc_of_Z (a * 2 ^ k) ≤ q * Qc_of_Z (2 ^ k))%Qc.
      rewrite Z2Qc_inj_mul. by apply Qcmult_le_mono_nonneg_r; [apply Qclt_le_weak|]. }
    by rewrite this_Qc_of_Z, Qfloor_Z in H.
  - apply Hdiv. rewrite <- Z2Qc_inj_mul. apply (proj1 (Z2Qc_inj_le _ _)).
    apply Hhi. rewrite Z2Qc_inj_mul.
    by apply Qcmult_le_mono_nonneg_r; [apply Qclt_le_weak|].
Qed.

Lemma mean_None s : mean s = None ↔ dropna s = [].
Proof. unfold mean. by destruct (dropna s). Qed.

(** ** Lemmas: columns and masks *)

Lemma elem_of_dropna {A} (s : list (option A)) (x : A) :
  x ∈ dropna s ↔ Some x ∈ s.
Proof.
  unfold dropna. rewrite list_elem_of_omap. split.
  - intros (o & Ho & Hx). simpl in Hx. by subst.
  - intros H. by exists (Some x).
Qed.

Lemma elem_of_unique {A} `{EqDecision A} (l : list A) (x : A) :
  x ∈ unique l ↔ x ∈ l.
Proof.
  induction l as [|y l IH]; simpl; [done|].
  rewrite !elem_of_cons, list_elem_of_filter, IH.
  destruct (decide (x = y)); naive_solver.
Qed.

Lemma NoDup_unique {A} `{EqDecision A} (l : list A) : NoDup (unique l).
Proof.
  induction l as [|y l IH]; simpl; [constructor|].
  constructor.
  - rewrite list_elem_of_filter. naive_solver.
  - by apply NoDup_filter.
Qed.

Lemma isin1_true {A} `{EqDecision A} (values : list A) (c : option A) :
  isin1 values c = true ↔ ∃ v, c = Some v ∧ v ∈ values.
Proof.
  destruct c as [v|]; simpl.
  - rewrite bool_decide_eq_true. naive_solver.
  - naive_solver.
Qed.

Lemma satisfaz_b_true sel r : satisfaz_b sel r = true ↔ satisfaz sel r.
Proof.
  unfold satisfaz_b, satisfaz.
  rewrite !andb_true_iff, !isin1_true. naive_solver.
Qed.

Lemma mask_and_fmap {A} (f g : A → bool) (l : list A) :
  mask_and (f <$> l) (g <$> l) = (λ x, f x && g x) <$> l.
Proof. induction l as [|x l IH]; csimpl; [done|]. by f_equal. Qed.

Lemma loc_mask_fmap {A} (f : A → bool) (l : list A) :
  loc_mask l (f <$> l) = filter (λ x, f x = true) l.
Proof.
  induction l as [|x l IH]; csimpl; [done|].
  rewrite filter_cons, IH. destruct (f x); by case_decide.
Qed.

Lemma rows_df_filtrado df sel :
  rows (df_filtrado df sel) = filter (λ r, satisfaz_b sel r = true) (rows df).
Proof.
  unfold df_filtrado, df_loc, isin; simpl.
  rewrite <- !list_fmap_compose, !mask_and_fmap.
  by rewrite loc_mask_fmap.
Qed.

Lemma filter_subseq_where {A} (P : A → Prop) `{∀ x, Decision (P x)} (l : list A) :
  subseq_where P l (filter P l).
Proof.
  induction l as [|x l IH]; simpl; [constructor|].
  rewrite filter_cons. case_decide; by constructor.
Qed.

Lemma subseq_where_unique {A} (P : A → Prop) (l k1 k2 : list A) :
  subseq_where P l k1 → subseq_where P l k2 → k1 = k2.
Proof.
  intros H1. revert k2.
  induction H1 as [|x l k Hx _ IH|x l k Hx _ IH]; intros k2 H2;
    inversion H2; subst; try contradiction; [done| |by apply IH].
  f_equal. by apply IH.
Qed.

Lemma subseq_where_iff {A} (P Q : A → Prop) (l k : list A) :
  (∀ x, P x ↔ Q x) → subseq_where P l k → subseq_where Q l k.
Proof.
  intros HPQ. induction 1; [constructor| |].
  - constructor 2; [by apply HPQ|done].
  - constructor 3; [by rewrite <- HPQ|done].
Qed.

Lemma subseq_where_sublist {A} (P : A → Prop) (l k : list A) :
  subseq_where P l k → sublist k l.
Proof. induction 1; by constructor. Qed.

Lemma subseq_where_elem_of {A} (P : A → Prop) (l k : list A) (x : A) :
  subseq_where P l k → x ∈ k ↔ x ∈ l ∧ P x.
Proof.
  induction 1 as [|y l k Hy _ IH|y l k Hy _ IH].
  - rewrite elem_of_nil. naive_solver.
  - rewrite !elem_of_cons, IH. naive_solver.
  - rewrite elem_of_cons, IH. naive_solver.
Qed.

Lemma filter_ext_elem_of {A} (P Q : A → Prop) `{∀ x, Decision (P x)}
    `{∀ x, Decision (Q x)} (l : list A) :
  (∀ x, x ∈ l → (P x ↔ Q x)) → filter P l = filter Q l.
Proof.
  induction l as [|x l IH]; intros HPQ; [done|].
  rewrite !filter_cons.
  assert (P x ↔ Q x) as Hx by (apply HPQ; left).
  rewrite IH by (intros y Hy; apply HPQ; by right).
  destruct (decide (P x)), (decide (Q x)); naive_solver.
Qed.

Lemma elem_of_disponiveis {A} `{EqDecision A} (le : A → A → bool)
    (s : list (option A)) (x : A) :
  x ∈ ordenar le (unique (dropna s)) ↔ Some x ∈ s.
Proof. by rewrite elem_of_ordenar, elem_of_unique, elem_of_dropna. Qed.

Lemma isin1_disponiveis {A} `{EqDecision A} (le : A → A → bool)
    (f : Row → option A) (l : list Row) (r : Row) :
  r ∈ l → isin1 (ordenar le (unique (dropna (f <$> l)))) (f r) = true ↔ is_Some (f r).
Proof.
  intros Hr. rewrite isin1_true. split.
  - intros (v & -> & _). by eexists.
  - intros [v Hv]. exists v. split; [done|].
    apply elem_of_disponiveis. rewrite <- Hv. by apply list_elem_of_fmap_2.
Qed.

Lemma satisfaz_completo sel r : satisfaz sel r → completo r.
Proof.
  intros ((a & Ha & _) & (s & Hs & _) & (c & Hc & _) & (t & Ht & _)).
  unfold completo. rewrite Ha, Hs, Hc, Ht. by repeat split; eexists.
Qed.

Lemma satisfaz_padrao df r :
  r ∈ rows df → satisfaz (selecao_padrao df) r ↔ completo r.
Proof.
  intros Hr. rewrite <- satisfaz_b_true. unfold satisfaz_b, completo; simpl.
  unfold anos_disponiveis, senioridades_disponiveis, contratos_disponiveis,
    tamanhos_disponiveis.
  rewrite !andb_true_iff, !isin1_disponiveis by done. naive_solver.
Qed.

(** ** Lemmas: group-by *)
Section groupby_lemmas.
Context {K : Type} `{EqDecision K} (le : K → K → bool) (key : Row → option K).

Lemma elem_of_group_keys l k :
  k ∈ group_keys le key l ↔ ∃ r, r ∈ l ∧ key r = Some k.
Proof.
  unfold group_keys. rewrite elem_of_disponiveis, list_elem_of_fmap. naive_solver.
Qed.

Lemma NoDup_group_keys l : NoDup (group_keys le key l).
Proof. apply NoDup_ordenar, NoDup_unique. Qed.

Lemma fst_agg_groupby {V} (f : list Row → V) l :
  (agg f (groupby le key l)).*1 = group_keys le key l.
Proof.
  unfold agg, groupby. rewrite <- !list_fmap_compose.
  induction (group_keys le key l) as [|k ks IH]; csimpl; [done|]. by f_equal.
Qed.

Lemma elem_of_agg_groupby {V} (f : list Row → V) l k x :
  (k, x) ∈ agg f (groupby le key l) ↔
  (∃ r, r ∈ l ∧ key r = Some k) ∧ x = f (filter (λ r, key r = Some k) l).
Proof.
  unfold agg, groupby. rewrite <- list_fmap_compose, list_elem_of_fmap.
  setoid_rewrite elem_of_group_keys. unfold group_rows. simpl. split.
  - intros (k' & Heq & Hk'). by simplify_eq.
  - intros [Hk ->]. by exists k.
Qed.

Lemma agg_groupby_agregado {V} (f : list Row → V) l :
  agregado_por key f l (agg f (groupby le key l)).
Proof.
  split; [rewrite fst_agg_groupby; apply NoDup_group_keys|].
  intros k x. apply elem_of_agg_groupby.
Qed.

Lemma dropna_sem_faltantes l :
  dropna (key <$> sem_faltantes key l) = dropna (key <$> l).
Proof.
  unfold sem_faltantes, dropna.
  induction l as [|r l IH]; [done|].
  rewrite filter_cons. destruct (key r) as [k|] eqn:Hk.
  - rewrite decide_True by (by eexists). csimpl. by rewrite Hk, IH.
  - rewrite decide_False by (by intros [? [=]]). csimpl. by rewrite Hk.
Qed.

Lemma group_rows_sem_faltantes l k :
  group_rows key (sem_faltantes key l) k = group_rows key l k.
Proof.
  unfold group_rows, sem_faltantes. rewrite list_filter_filter.
  apply list_filter_iff. intros r. split; [naive_solver|].
  intros Hr. split; [done|]. by eexists.
Qed.

Lemma groupby_sem_faltantes l :
  groupby le key (sem_faltantes key l) = groupby le key l.
Proof.
  unfold groupby, group_keys. rewrite dropna_sem_faltantes.
  apply list_fmap_ext. intros _ k _. by rewrite group_rows_sem_faltantes.
Qed.
End groupby_lemmas.

Lemma chave2_Some {A B} (f : Row → option A) (g : Row → option B) r a b :
  chave2 f g r = Some (a, b) ↔ f r = Some a ∧ g r = Some b.
Proof. unfold chave2. destruct (f r), (g r); naive_solver. Qed.

Lemma chave2_is_Some {A B} (f : Row → option A) (g : Row → option B) r :
  is_Some (chave2 f g r) ↔ is_Some (f r) ∧ is_Some (g r).
Proof.
  unfold chave2. destruct (f r), (g r); split;
    try (intros [? [=]]); try (intros [[? [=]] [? [=]]]); try (by split; eexists);
    by eexists.
Qed.

Lemma agregado_por_chave2 {A B V} `{EqDecision A, EqDecision B}
    (f : Row → option A) (g : Row → option B) (h : list Row → V) l t :
  agregado_por (chave2 f g) h l t → agregado_por_par f g h l t.
Proof.
  intros [Hnd Ht]. split; [done|]. intros a b x. rewrite Ht.
  rewrite (list_filter_iff (λ r, chave2 f g r = Some (a, b))
             (λ r, f r = Some a ∧ g r = Some b)) by (intros r; apply chave2_Some).
  split; intros [(r & Hr & Hk) ->]; (split; [|done]); exists r; split; try done;
    by apply chave2_Some.
Qed.

Lemma loc_mask_eq {A} `{EqDecision A} (f : Row → option A) (x : A) (l : list Row) :
  loc_mask l ((λ c, bool_decide (c = Some x)) <$> (f <$> l)) =
  filter (λ r, f r = Some x) l.
Proof.
  rewrite <- list_fmap_compose, loc_mask_fmap.
  apply list_filter_iff. intros r. simpl. apply bool_decide_eq_true.
Qed.

Lemma loc_mask_isin {A} `{EqDecision A} (f : Row → option A) (vs : list A)
    (l : list Row) :
  loc_mask l (isin (f <$> l) vs) = filter (λ r, isin1 vs (f r) = true) l.
Proof. unfold isin. by rewrite <- list_fmap_compose, loc_mask_fmap. Qed.

Lemma coluna_cargo r : coluna "cargo" r = cargo r.
Proof. reflexivity. Qed.

Lemma coluna_senioridade r : coluna "senioridade" r = senioridade r.
Proof. reflexivity. Qed.

Lemma coluna_contrato r : coluna "contrato" r = contrato r.
Proof. reflexivity. Qed.

Lemma coluna_residencia r : coluna "residencia" r = residencia r.
Proof. reflexivity. Qed.

Lemma coluna_residencia_iso3 r : coluna "residencia_iso3" r = residencia_iso3 r.
Proof. reflexivity. Qed.

Lemma residencia_em_columns v : "residencia" ∈ columns v ↔ tem_residencia v = true.
Proof.
  unfold columns. destruct (tem_residencia v).
  - split; [done|]. intros _. apply elem_of_app. right. left.
  - split; [|done]. rewrite app_nil_r. unfold colunas_base.
    rewrite !elem_of_cons, elem_of_nil. naive_solver.
Qed.

(** ** The model on concrete frames *)

Ltac por_calculo := apply (bool_decide_unpack _); by vm_compute.

Example round64_terco_de_350000 :
  round64 (Q2Qc (350000 # 3)) = Q2Qc (8017272285866667 # 68719476736).
Proof. por_calculo. Qed.

Example round64_um_decimo :
  round64 (Q2Qc (1 # 10)) = Q2Qc (3602879701896397 # 36028797018963968).
Proof. por_calculo. Qed.

Example round64_empate_par :
  round64 (Qc_of_Z (2 ^ 53 + 1)) = Qc_of_Z (2 ^ 53) ∧
  round64 (Qc_of_Z (2 ^ 53 + 3)) = Qc_of_Z (2 ^ 53 + 4) ∧
  round64 (Qc_of_Z (2 ^ 63 - 1)) = Qc_of_Z (2 ^ 63).
Proof. repeat split; por_calculo. Qed.

(** Three salaries of one tenth: the mean comes out above each of them. *)
Example mean_acima_do_maximo :
  mean (replicate 3 (Some (round64 (Q2Qc (1 # 10))))) =
    Some (Q2Qc (7205759403792795 # 72057594037927936)) ∧
  max_skipna (replicate 3 (Some (round64 (Q2Qc (1 # 10))))) =
    Some (Q2Qc (3602879701896397 # 36028797018963968)).
Proof. split; por_calculo. Qed.

Example ordenar_estavel :
  ordenar (λ p q : nat * string, (p.1 <=? q.1)%nat)
    [(2, "a"); (1, "b"); (2, "c"); (1, "d")]%nat =
  [(1, "b"); (1, "d"); (2, "a"); (2, "c")]%nat.
Proof. reflexivity. Qed.

Example unique_primeira_ocorrencia :
  unique ["b"; "a"; "b"; "c"; "a"] = ["b"; "a"; "c"].
Proof. reflexivity. Qed.

Example isin_nan : isin [Some 1%Z; None; Some 3%Z] [1%Z; 2%Z] = [true; false; false].
Proof. reflexivity. Qed.

Example mode_empate :
  mode [Some "b"; Some "a"; None; Some "b"; Some "a"; Some "c"] = ["a"; "b"].
Proof. reflexivity. Qed.

Example median_par :
  median [Some (Qc_of_Z 1); Some (Qc_of_Z 4); None; Some (Qc_of_Z 2); Some (Qc_of_Z 3)] =
  Some (Q2Qc (5 # 2)).
Proof. por_calculo. Qed.

Example median_impar :
  median [Some (Qc_of_Z 1); Some (Qc_of_Z 4); None; Some (Qc_of_Z 2)] =
  Some (Qc_of_Z 2).
Proof. por_calculo. Qed.

Example selecao_padrao_exemplo :
  selecao_padrao exemplo = mkSel [2023%Z; 2024%Z] ["senior"] ["integral"] ["M"].
Proof. reflexivity. Qed.

Example vista_padrao_exemplo :
  rows (df_filtrado exemplo (selecao_padrao exemplo)) = rows exemplo.
Proof. reflexivity. Qed.

Example top_cargos_exemplo :
  top_cargos exemplo =
  [("Analyst", Some (Qc_of_Z 50000)); ("Data Scientist", Some (Qc_of_Z 150000))].
Proof. por_calculo. Qed.

Example top_cargos_doze :
  (top_cargos doze_cargos).*2 =
    Some ∘ Qc_of_Z <$>
      [4000; 4000; 5000; 6000; 7000; 8000; 9000; 10000; 11000; 12000]%Z ∧
  (top_cargos doze_cargos).*1 ≡ₚ ["a"; "i"; "e"; "l"; "d"; "k"; "h"; "j"; "f"; "b"].
Proof. split; [por_calculo|]. by vm_compute. Qed.

Example top10_cargos_doze :
  top10_cargos doze_cargos = ["b"; "f"; "j"; "h"; "k"; "d"; "l"; "e"; "a"; "i"].
Proof. reflexivity. Qed.

Example salario_medio_exemplo :
  match metricas exemplo with
  | inr m => salario_medio m = Some (round64 (Q2Qc (350000 # 3))) ∧
             salario_medio m ≠ Some (Q2Qc (350000 # 3)) ∧
             salario_maximo m = Some (Qc_of_Z 200000) ∧
             total_registros m = 3%nat ∧
             cargo_mais_frequente m = "Data Scientist"
  | inl _ => False
  end.
Proof. vm_compute. repeat split; por_calculo. Qed.

Example remoto_contagem_faltantes :
  remoto_contagem exemplo_faltantes =
  [(Some "presencial", 2); (Some "remoto", 1); (None, 1)]%nat.
Proof. reflexivity. Qed.

Example df_treemap_faltantes :
  df_treemap exemplo_faltantes =
  [(("Brazil", "Analyst"), None);
   (("United States", "Data Scientist"), Some (Qc_of_Z 100000))].
Proof. por_calculo. Qed.

Example df_sun_faltantes :
  df_sun exemplo_faltantes =
  [(("junior", "parcial"), 1); (("senior", "integral"), 2)]%nat.
Proof. reflexivity. Qed.

Example piv_faltantes :
  match piv exemplo_faltantes with
  | inr p =>
      piv_index p = ["junior"; "senior"] ∧
      piv_columns p = ["integral"; "parcial"] ∧
      piv_values p = [[None; Some (Qc_of_Z 40000)]; [Some (Qc_of_Z 100000); None]] ∧
      celula p "junior" "integral" = Some None ∧
      celula p "pleno" "parcial" = None
  | inl _ => False
  end.
Proof. vm_compute. repeat split; por_calculo. Qed.

Example df_linha_faltantes :
  df_linha exemplo_faltantes =
  [((2023%Z, "Data Scientist"), Some (Qc_of_Z 100000));
   ((2024%Z, "Analyst"), Some (Qc_of_Z 50000))].
Proof. por_calculo. Qed.

Example aba7_faltantes :
  aba7 exemplo_faltantes (λ opcoes, default "" (head opcoes)) =
  Grafico [((2024%Z, "BRA"), None)].
Proof. reflexivity. Qed.

(** ** The filter engine *)

(** C1. For every dataset and every selection, the filtered view consists
    of exactly the records whose year, seniority, contract and company
    size are each a member of the corresponding selection set, kept at
    their place in the original order; the frame has the same columns, the
    filtering statement leaves the variable [df] as it was, and as soon as
    one of the four selection sets is empty the view is empty. *)
Theorem filtro_conjuntivo_exato (df : DataFrame) (sel : Selecao) :
  subseq_where (satisfaz sel) (rows df) (rows (df_filtrado df sel)) ∧
  (∀ k, subseq_where (satisfaz sel) (rows df) k → k = rows (df_filtrado df sel)) ∧
  sublist (rows (df_filtrado df sel)) (rows df) ∧
  (∀ r, r ∈ rows (df_filtrado df sel) ↔ r ∈ rows df ∧ satisfaz sel r) ∧
  columns (df_filtrado df sel) = columns df ∧
  (∀ e, env_df (exec_filtragem sel e) = env_df e ∧
        env_df_filtrado (exec_filtragem sel e) = Some (df_filtrado (env_df e) sel)) ∧
  (anos_selecionados sel = [] ∨ senioridades_selecionadas sel = [] ∨
   contratos_selecionados sel = [] ∨ tamanhos_selecionados sel = [] →
   rows (df_filtrado df sel) = [] ∧ df_empty (df_filtrado df sel) = true).
Proof.
  assert (subseq_where (satisfaz sel) (rows df) (rows (df_filtrado df sel))) as Hsw.
  { rewrite rows_df_filtrado.
    eapply subseq_where_iff; [apply satisfaz_b_true|].
    apply filter_subseq_where. }
  split; [done|]. split.
  { intros k Hk. by eapply subseq_where_unique. }
  split; [by eapply subseq_where_sublist|].
  split; [intros r; by apply subseq_where_elem_of|].
  split; [done|]. split; [done|].
  intros Hvazio.
  assert (rows (df_filtrado df sel) = []) as Hnil.
  { destruct (rows (df_filtrado df sel)) as [|r k] eqn:Hk; [done|]. exfalso.
    assert (satisfaz sel r) as ((a & _ & Ha) & (s & _ & Hs) & (c & _ & Hc) & (t & _ & Ht)).
    { eapply (subseq_where_elem_of _ _ _ r Hsw). left. }
    destruct Hvazio as [H|[H|[H|H]]]; rewrite H in *; by eapply elem_of_nil. }
  split; [done|]. unfold df_empty. by rewrite Hnil.
Qed.

Lemma filtro_conjuntivo_exato_witness :
  rows (df_filtrado exemplo (mkSel [2023%Z; 2024%Z] [] ["integral"] ["M"])) = [].
Proof.
  destruct (filtro_conjuntivo_exato exemplo
              (mkSel [2023%Z; 2024%Z] [] ["integral"] ["M"]))
    as (_ & _ & _ & _ & _ & _ & Hvazio).
  apply Hvazio. right; left; reflexivity.
Defined.

(** C6. Filtering is idempotent: filtering the filtered view again by the
    same selection gives the filtered view. *)
Theorem filtro_idempotente (df : DataFrame) (sel : Selecao) :
  df_filtrado (df_filtrado df sel) sel = df_filtrado df sel.
Proof.
  assert (∀ v w, tem_residencia v = tem_residencia w → rows v = rows w → v = w)
    as Hext by (intros [??] [??]; simpl; congruence).
  apply Hext; [done|].
  rewrite !rows_df_filtrado.
  rewrite list_filter_filter. apply list_filter_iff. naive_solver.
Qed.

(** C9. A record with a missing value in one of the four filter columns is
    in no filtered view, whatever the selection; under the default
    selection (every observed value of every column) the view is exactly
    the records with a value in all four columns, so it can be a strict
    part of the dataset. *)
Theorem faltantes_fora_do_filtro :
  (∀ df sel r, r ∈ rows (df_filtrado df sel) → completo r) ∧
  (∀ df sel r,
     ano r = None ∨ senioridade r = None ∨ contrato r = None ∨
     tamanho_empresa r = None → r ∉ rows (df_filtrado df sel)) ∧
  (∀ df, rows (df_filtrado df (selecao_padrao df)) = filter completo (rows df)) ∧
  (∃ df, length (rows (df_filtrado df (selecao_padrao df))) < length (rows df)).
Proof.
  assert (∀ df sel r, r ∈ rows (df_filtrado df sel) → completo r) as H1.
  { intros df sel r. rewrite rows_df_filtrado, list_elem_of_filter, satisfaz_b_true.
    intros [Hs _]. by eapply satisfaz_completo. }
  split; [done|]. split.
  { intros df sel r Hnone Hr. apply H1 in Hr as (Ha & Hs & Hc & Ht).
    destruct Hnone as [H|[H|[H|H]]]; rewrite H in *; by eapply is_Some_None. }
  split.
  { intros df. rewrite rows_df_filtrado. apply filter_ext_elem_of.
    intros r Hr. rewrite satisfaz_b_true. by apply satisfaz_padrao. }
  exists (mkDF false
    [ registro 2023 "Data Scientist" "USA" 100000;
      mkRow (Some 2024%Z) None (Some "integral") (Some "M") (Some "Analyst")
            (Some (Qc_of_Z 50000)) (Some "remoto") (Some "BRA") None ]).
  vm_compute. lia.
Qed.

(** ** KPIs *)

(** The KPI block raises on no frame. *)
Lemma metricas_total (v : DataFrame) : ∃ m, metricas v = inr m.
Proof.
  unfold metricas. destruct (negb (df_empty v)); [|by eexists].
  destruct (bool_decide ("cargo" ∈ columns v)); simpl; [|by eexists].
  destruct (mode (cargo <$> rows v)) as [|c cs] eqn:Hm; simpl; by eexists.
Qed.

(** C5. On an empty filtered view the KPI block raises nothing and returns
    the placeholder values: mean salary 0.0, maximum salary 0.0, record
    count 0 and most frequent title "N/D". *)
Theorem metricas_vista_vazia (v : DataFrame) :
  df_empty v = true →
  metricas v = inr (mkMetricas (Some (Qc_of_Z 0)) (Some (Qc_of_Z 0)) 0 "N/D").
Proof. intros Hv. unfold metricas. by rewrite Hv. Qed.

Lemma metricas_vista_vazia_witness :
  metricas (df_filtrado exemplo (mkSel [] ["senior"] ["integral"] ["M"])) =
  inr (mkMetricas (Some (Qc_of_Z 0)) (Some (Qc_of_Z 0)) 0 "N/D").
Proof. apply metricas_vista_vazia. reflexivity. Defined.

(** ** Mean salary of "Data Scientist" per country *)

Lemma rows_df_ds v :
  rows (df_ds v) = filter (λ r, cargo r = Some "Data Scientist") (rows v).
Proof. unfold df_ds, df_loc; simpl. apply loc_mask_eq. Qed.



(** ** Treemap *)

(** C8. The treemap table is labelled by the display-name column
    [residencia] when the view has that column and by the ISO3 code column
    [residencia_iso3] when it has not; either way it holds one line per
    (country label, title) pair with the mean salary of the pair: NaN
    exactly when no record of the pair has a salary, and the exact mean
    rounded once to binary64 when the running totals of the salaries need
    no rounding, as with whole-number salaries.  On the frame with the
    display-name column the lines are (Brazil, Analyst) with NaN and
    (United States, Data Scientist) with 100000; on the three-record
    example, which has no such column, they are (BRA, Analyst) with 50000
    and (USA, Data Scientist) with 150000. *)
Theorem treemap_rotulo_do_pais (v : DataFrame) :
  ("residencia" ∈ columns v →
     coluna_pais v = "residencia" ∧
     agregado_por_par residencia cargo (λ g, mean (usd <$> g)) (rows v)
       (df_treemap v) ∧
     ∀ p c x, ((p, c), x) ∈ df_treemap v →
       (x = None ↔
          salarios (λ r, residencia r = Some p ∧ cargo r = Some c) (rows v) = []) ∧
       (somas_exatas
          (salarios (λ r, residencia r = Some p ∧ cargo r = Some c) (rows v)) →
        x = media_f64
              (salarios (λ r, residencia r = Some p ∧ cargo r = Some c) (rows v)))) ∧
  ("residencia" ∉ columns v →
     coluna_pais v = "residencia_iso3" ∧
     agregado_por_par residencia_iso3 cargo (λ g, mean (usd <$> g)) (rows v)
       (df_treemap v) ∧
     ∀ p c x, ((p, c), x) ∈ df_treemap v →
       (x = None ↔
          salarios (λ r, residencia_iso3 r = Some p ∧ cargo r = Some c) (rows v)
            = []) ∧
       (somas_exatas
          (salarios (λ r, residencia_iso3 r = Some p ∧ cargo r = Some c) (rows v)) →
        x = media_f64
              (salarios (λ r, residencia_iso3 r = Some p ∧ cargo r = Some c)
                 (rows v)))) ∧
  df_treemap exemplo_faltantes =
    [(("Brazil", "Analyst"), None);
     (("United States", "Data Scientist"), Some (Qc_of_Z 100000))] ∧
  df_treemap exemplo =
    [(("BRA", "Analyst"), Some (Qc_of_Z 50000));
     (("USA", "Data Scientist"), Some (Qc_of_Z 150000))].
Proof.
  split; [|split; [|split; por_calculo]]; intros Hcol.
  - assert (coluna_pais v = "residencia") as Hp
      by (unfold coluna_pais; by rewrite bool_decide_eq_true_2).
    assert (agregado_por_par residencia cargo (λ g, mean (usd <$> g)) (rows v)
              (df_treemap v)) as Hagg.
    { unfold df_treemap. rewrite Hp.
      apply agregado_por_chave2, (agg_groupby_agregado _ (chave2 residencia cargo)). }
    split; [done|]. split; [done|].
    intros p c x Hx. apply Hagg in Hx as [_ ->].
    unfold salarios. split; [apply mean_None|apply mean_exato].
  - assert (coluna_pais v = "residencia_iso3") as Hp
      by (unfold coluna_pais; by rewrite bool_decide_eq_false_2).
    assert (agregado_por_par residencia_iso3 cargo (λ g, mean (usd <$> g))
              (rows v) (df_treemap v)) as Hagg.
    { unfold df_treemap. rewrite Hp.
      apply agregado_por_chave2,
        (agg_groupby_agregado _ (chave2 residencia_iso3 cargo)). }
    split; [done|]. split; [done|].
    intros p c x Hx. apply Hagg in Hx as [_ ->].
    unfold salarios. split; [apply mean_None|apply mean_exato].
Qed.

(** ** Missing grouping keys *)

Lemma sum_list_fmap_cons {A} (f : A → nat) k ks :
  sum_list (f <$> k :: ks) = (f k + sum_list (f <$> ks))%nat.
Proof. done. Qed.

Lemma sum_list_fmap_zero {A} (f : A → nat) (ks : list A) :
  (∀ k, k ∈ ks → f k = 0%nat) → sum_list (f <$> ks) = 0%nat.
Proof.
  induction ks as [|k ks IH]; intros Hf; [done|].
  rewrite sum_list_fmap_cons, Hf, IH; [done| |left].
  intros k' Hk'. apply Hf. by right.
Qed.

Section contagem.
Context {K : Type} `{EqDecision K} (key : Row → option K).

Lemma sum_list_indicador (ks : list K) (o : option K) :
  NoDup ks → (∀ k, o = Some k → k ∈ ks) →
  sum_list ((λ k, if decide (o = Some k) then 1 else 0)%nat <$> ks) =
  (if decide (is_Some o) then 1 else 0)%nat.
Proof.
  intros Hnd Hin. destruct o as [k0|].
  - rewrite decide_True by (by eexists).
    specialize (Hin k0 eq_refl).
    induction Hnd as [|k ks Hk Hnd IH]; [by apply elem_of_nil in Hin|].
    rewrite sum_list_fmap_cons.
    destruct (decide (Some k0 = Some k)) as [[= ->]|Hne].
    + rewrite sum_list_fmap_zero; [done|].
      intros k' Hk'. rewrite decide_False; [done|]. intros [= ->]. done.
    + apply elem_of_cons in Hin as [->|Hin]; [done|]. by rewrite IH.
  - rewrite decide_False by (by intros [? [=]]).
    apply sum_list_fmap_zero. intros k _. by rewrite decide_False.
Qed.

Lemma sum_list_contagens (ks : list K) (l : list Row) :
  NoDup ks → (∀ r k, r ∈ l → key r = Some k → k ∈ ks) →
  sum_list ((λ k, length (filter (λ r, key r = Some k) l)) <$> ks) =
  length (sem_faltantes key l).
Proof.
  intros Hnd. unfold sem_faltantes.
  induction l as [|r l IH]; intros Hin.
  - by apply sum_list_fmap_zero.
  - rewrite filter_cons.
    assert (sum_list ((λ k, length (filter (λ r, key r = Some k) (r :: l))) <$> ks) =
            (sum_list ((λ k, if decide (key r = Some k) then 1 else 0)%nat <$> ks) +
             sum_list ((λ k, length (filter (λ r, key r = Some k) l)) <$> ks))%nat) as ->.
    { clear. induction ks as [|k ks IHk]; [done|].
      rewrite !sum_list_fmap_cons, IHk, filter_cons.
      destruct (decide (key r = Some k)); simpl; lia. }
    rewrite IH by (intros r' k Hr'; apply Hin; by right).
    rewrite sum_list_indicador; [|done|intros k Hk; eapply Hin; [left|done]].
    by destruct (decide (is_Some (key r))).
Qed.

Lemma soma_dos_tamanhos (le : K → K → bool) (l : list Row) :
  sum_list ((agg length (groupby le key l)).*2) = length (sem_faltantes key l).
Proof.
  unfold agg, groupby. rewrite <- !list_fmap_compose.
  rewrite <- (sum_list_contagens (group_keys le key l) l).
  - done.
  - apply NoDup_group_keys.
  - intros r k Hr Hk. apply elem_of_group_keys. by exists r.
Qed.
End contagem.

Lemma agg_groupby_sem_faltantes {K V} `{EqDecision K} (le : K → K → bool)
    (key : Row → option K) (f : list Row → V) (l : list Row) :
  agg f (groupby le key l) = agg f (groupby le key (sem_faltantes key l)).
Proof. by rewrite groupby_sem_faltantes. Qed.

Lemma agg_groupby_chaves {A B V} `{EqDecision A, EqDecision B}
    (le : A * B → A * B → bool) (f : Row → option A) (g : Row → option B)
    (h : list Row → V) (l : list Row) a b x :
  ((a, b), x) ∈ agg h (groupby le (chave2 f g) l) →
  ∃ r, r ∈ l ∧ f r = Some a ∧ g r = Some b.
Proof.
  intros [(r & Hr & Hk) _]%elem_of_agg_groupby.
  exists r. split; [done|]. by apply chave2_Some.
Qed.

(** C10. Each group-by pipeline keyed on categorical columns leaves out
    the records with a missing key cell: its table is the one computed
    from the input without those records, and every line of the table is
    keyed by values that some record of the input carries in both key
    columns, so no line stands for a missing key.  Treemap (country label,
    title), sunburst and heatmap (seniority, contract), line chart (year,
    title) over the records of the five most frequent titles, animated map
    (year, country code) over the records of the selected title.  For the
    sunburst the counts add up to the number of records that have both key
    cells: a record with a missing key is counted nowhere. *)
Theorem agrupamentos_excluem_faltantes (v : DataFrame) (cargo_sel : string) :
  (df_treemap v =
     df_treemap (vista_sem_faltantes (chave2 (coluna (coluna_pais v)) cargo) v) ∧
   ∀ p c x, ((p, c), x) ∈ df_treemap v →
     ∃ r, r ∈ rows v ∧ coluna (coluna_pais v) r = Some p ∧ cargo r = Some c) ∧
  (df_sun v = df_sun (vista_sem_faltantes (chave2 senioridade contrato) v) ∧
   (∀ s c n, ((s, c), n) ∈ df_sun v →
     (∃ r, r ∈ rows v ∧ senioridade r = Some s ∧ contrato r = Some c) ∧
     n = length (filter (λ r, senioridade r = Some s ∧ contrato r = Some c) (rows v))) ∧
   sum_list ((df_sun v).*2) =
     length (filter (λ r, is_Some (senioridade r) ∧ is_Some (contrato r)) (rows v))) ∧
  (piv v = piv (vista_sem_faltantes (chave2 senioridade contrato) v) ∧
   ∀ s c x, ((s, c), x) ∈ media_sen_contrato v →
     ∃ r, r ∈ rows v ∧ senioridade r = Some s ∧ contrato r = Some c) ∧
  (df_linha v = mediana_ano_cargo (sem_faltantes (chave2 ano cargo) (linhas_top5 v)) ∧
   ∀ a c x, ((a, c), x) ∈ df_linha v →
     ∃ r, r ∈ rows v ∧ ano r = Some a ∧ cargo r = Some c) ∧
  (df_anim v cargo_sel =
     media_ano_pais (sem_faltantes (chave2 ano residencia_iso3) (linhas_cargo v cargo_sel)) ∧
   ∀ a p x, ((a, p), x) ∈ df_anim v cargo_sel →
     ∃ r, r ∈ rows v ∧ ano r = Some a ∧ residencia_iso3 r = Some p ∧
          cargo r = Some cargo_sel).
Proof.
  split; [|split; [|split; [|split]]].
  - split.
    + unfold df_treemap, vista_sem_faltantes, coluna_pais, columns; simpl.
      apply (agg_groupby_sem_faltantes _ (chave2 _ cargo)).
    + intros p c x H. by apply agg_groupby_chaves in H.
  - split.
    + unfold df_sun, vista_sem_faltantes; simpl.
      apply (agg_groupby_sem_faltantes _ (chave2 senioridade contrato)).
    + split.
      * intros s c n H.
        pose proof (agregado_por_chave2 senioridade contrato _ _ _
          (agg_groupby_agregado (par_le str_le str_le)
             (chave2 senioridade contrato) length (rows v))) as [_ Hspec].
        by apply Hspec.
      * unfold df_sun.
        rewrite (soma_dos_tamanhos (chave2 senioridade contrato)).
        unfold sem_faltantes. f_equal. apply list_filter_iff.
        intros r. apply chave2_is_Some.
  - split.
    + unfold piv, media_sen_contrato, vista_sem_faltantes; simpl. f_equal.
      apply (agg_groupby_sem_faltantes _ (chave2 senioridade contrato)).
    + intros s c x H. by apply agg_groupby_chaves in H.
  - split.
    + unfold df_linha, mediana_ano_cargo.
      apply (agg_groupby_sem_faltantes _ (chave2 ano cargo)).
    + intros a c x H. apply agg_groupby_chaves in H as (r & Hr & Ha & Hc).
      exists r. split; [|done]. unfold linhas_top5 in Hr.
      rewrite loc_mask_isin in Hr. by apply list_elem_of_filter in Hr as [_ Hr].
  - split.
    + unfold df_anim, media_ano_pais. f_equal.
      apply (agg_groupby_sem_faltantes _ (chave2 ano residencia_iso3)).
    + intros a p x H. unfold df_anim, media_ano_pais in H.
      apply elem_of_ordenar, agg_groupby_chaves in H as (r & Hr & Ha & Hp).
      unfold linhas_cargo in Hr. rewrite loc_mask_eq in Hr.
      apply list_elem_of_filter in Hr as [Hc Hr]. by exists r.
Qed.

(** ** Heatmap *)

Lemma posicao_elem_of x l :
  x ∈ l → ∃ i, posicao x l = Some i ∧ l !! i = Some x.
Proof.
  induction l as [|y l IH]; intros Hx; [by apply elem_of_nil in Hx|].
  simpl. destruct (decide (x = y)) as [->|Hne]; [by exists 0%nat|].
  apply elem_of_cons in Hx as [?|Hx]; [done|].
  destruct (IH Hx) as (i & -> & Hi). by exists (S i).
Qed.

Lemma posicao_not_elem_of x l : x ∉ l → posicao x l = None.
Proof.
  induction l as [|y l IH]; intros Hx; [done|].
  simpl. apply not_elem_of_cons in Hx as [Hne Hx].
  rewrite decide_False by done. by rewrite IH.
Qed.

Lemma NoDup_fst_functional {A B} (t : list (A * B)) k x y :
  NoDup (t.*1) → (k, x) ∈ t → (k, y) ∈ t → x = y.
Proof.
  induction t as [|[k' z] t IH]; csimpl; intros Hnd Hx Hy;
    [by apply elem_of_nil in Hx|].
  apply NoDup_cons in Hnd as [Hk' Hnd].
  apply elem_of_cons in Hx as [Hx|Hx], Hy as [Hy|Hy]; simplify_eq; try done.
  - destruct Hk'. apply list_elem_of_fmap. by exists (k', y).
  - destruct Hk'. apply list_elem_of_fmap. by exists (k', x).
  - by apply IH.
Qed.

Lemma procurar_elem_of t s c x :
  NoDup (t.*1) → ((s, c), x) ∈ t → procurar t s c = x.
Proof.
  intros Hnd Hx. unfold procurar.
  destruct (list_find (λ e, e.1 = (s, c)) t) as [[i [k y]]|] eqn:Hf.
  - apply list_find_Some in Hf as (Hi & Hk & _). simpl in *. subst k.
    apply list_elem_of_lookup_2 in Hi. by eapply NoDup_fst_functional.
  - apply list_find_None in Hf. rewrite Forall_forall in Hf.
    by destruct (Hf _ Hx).
Qed.

Lemma procurar_ausente t s c :
  (∀ x, ((s, c), x) ∉ t) → procurar t s c = None.
Proof.
  intros Hx. unfold procurar.
  destruct (list_find (λ e, e.1 = (s, c)) t) as [[i [k y]]|] eqn:Hf; [|done].
  apply list_find_Some in Hf as (Hi & Hk & _). simpl in *. subst k.
  apply list_elem_of_lookup_2 in Hi. by destruct (Hx y).
Qed.

Lemma pivot_ok t :
  NoDup (t.*1) →
  pivot t = inr (mkPivot (ordenar str_le (unique (t.*1.*1)))
                         (ordenar str_le (unique (t.*1.*2)))
                         ((λ s, (λ c, procurar t s c) <$>
                                  ordenar str_le (unique (t.*1.*2))) <$>
                            ordenar str_le (unique (t.*1.*1)))).
Proof. intros Hnd. unfold pivot. by rewrite decide_True. Qed.

Lemma celula_dentro t p s c :
  pivot t = inr p → s ∈ piv_index p → c ∈ piv_columns p →
  celula p s c = Some (procurar t s c).
Proof.
  unfold pivot. case_decide; [|done]. intros [= <-]; simpl. intros Hs Hc.
  destruct (posicao_elem_of _ _ Hs) as (i & Hpi & Hi).
  destruct (posicao_elem_of _ _ Hc) as (j & Hpj & Hj).
  unfold celula; simpl. rewrite Hpi, Hpj.
  rewrite list_lookup_fmap, Hi; simpl.
  by rewrite list_lookup_fmap, Hj.
Qed.

Lemma celula_fora p s c :
  s ∉ piv_index p ∨ c ∉ piv_columns p → celula p s c = None.
Proof.
  unfold celula. intros [Hs|Hc].
  - by rewrite (posicao_not_elem_of _ _ Hs).
  - rewrite (posicao_not_elem_of _ _ Hc). by destruct (posicao s (piv_index p)).
Qed.

Lemma pivot_rotulos t p :
  pivot t = inr p →
  (∀ s, s ∈ piv_index p ↔ ∃ c x, ((s, c), x) ∈ t) ∧
  (∀ c, c ∈ piv_columns p ↔ ∃ s x, ((s, c), x) ∈ t).
Proof.
  unfold pivot. case_decide; [|done]. intros [= <-]; simpl.
  split; intros l; rewrite elem_of_ordenar, elem_of_unique, list_elem_of_fmap.
  - split.
    + intros ([s c] & -> & [[k x] [Hk Hx]]%list_elem_of_fmap). simpl in *.
      subst k. by exists c, x.
    + intros (c & x & Hx). exists (l, c). split; [done|].
      apply list_elem_of_fmap. by exists ((l, c), x).
  - split.
    + intros ([s c] & -> & [[k x] [Hk Hx]]%list_elem_of_fmap). simpl in *.
      subst k. by exists s, x.
    + intros (s & x & Hx). exists (s, l). split; [done|].
      apply list_elem_of_fmap. by exists ((s, l), x).
Qed.

Lemma media_sen_contrato_agregado v :
  agregado_por_par senioridade contrato (λ g, mean (usd <$> g)) (rows v)
    (media_sen_contrato v).
Proof.
  apply agregado_por_chave2,
    (agg_groupby_agregado _ (chave2 senioridade contrato)).
Qed.

(** C3. For every non-empty view the heatmap pipeline builds, without
    raising, the matrix of mean salary per (seniority, contract) pair: its
    rows are the seniorities and its columns the contracts that occur in
    some pair of the view.  The cell of a pair present in the view is the
    binary64 mean of the salaries of the records of that pair: NaN exactly
    when none of them has a salary, and the exact mean rounded once to
    binary64 when the running totals of the salaries need no rounding, as
    with whole-number salaries.  The cell of a combination absent from the
    view is empty (NaN), never 0. *)
Theorem heatmap_media_por_par (v : DataFrame) :
  df_empty v = false →
  ∃ p, piv v = inr p ∧
    agregado_por_par senioridade contrato (λ g, mean (usd <$> g)) (rows v)
      (media_sen_contrato v) ∧
    (∀ s, s ∈ piv_index p ↔ ∃ c, par_presente v s c) ∧
    (∀ c, c ∈ piv_columns p ↔ ∃ s, par_presente v s c) ∧
    (∀ s c, par_presente v s c →
       celula p s c =
       Some (mean (usd <$> filter (λ r, senioridade r = Some s ∧ contrato r = Some c)
                             (rows v)))) ∧
    (∀ s c, par_presente v s c →
       (celula p s c = Some None ↔
          salarios (λ r, senioridade r = Some s ∧ contrato r = Some c) (rows v)
            = []) ∧
       (somas_exatas
          (salarios (λ r, senioridade r = Some s ∧ contrato r = Some c) (rows v)) →
        celula p s c =
          Some (media_f64
                  (salarios (λ r, senioridade r = Some s ∧ contrato r = Some c)
                     (rows v))))) ∧
    (∀ s c, ¬ par_presente v s c → s ∈ piv_index p → c ∈ piv_columns p →
       celula p s c = Some None) ∧
    (∀ s c, ¬ par_presente v s c → celula p s c ≠ Some (Some (Qc_of_Z 0))).
Proof.
  intros _.
  destruct (media_sen_contrato_agregado v) as [Hnd Hspec].
  pose proof (pivot_ok _ Hnd) as Hp.
  set (p := mkPivot _ _ _) in Hp. exists p.
  destruct (pivot_rotulos _ _ Hp) as [Hidx Hcol].
  assert (∀ s c, par_presente v s c ↔ ∃ x, ((s, c), x) ∈ media_sen_contrato v)
    as Hpres.
  { intros s c. split.
    - intros Hsc. eexists. apply Hspec. by split.
    - intros [x Hx]. by apply Hspec in Hx as [Hsc _]. }
  assert (∀ s, s ∈ piv_index p ↔ ∃ c, par_presente v s c) as Hidx'.
  { intros s. rewrite Hidx. by setoid_rewrite Hpres. }
  assert (∀ c, c ∈ piv_columns p ↔ ∃ s, par_presente v s c) as Hcol'.
  { intros c. rewrite Hcol. by setoid_rewrite Hpres. }
  assert (∀ s c, ¬ par_presente v s c → s ∈ piv_index p → c ∈ piv_columns p →
            celula p s c = Some None) as Haus.
  { intros s c Hsc Hs Hc. rewrite (celula_dentro _ _ _ _ Hp Hs Hc).
    f_equal. apply procurar_ausente. intros x Hx. apply Hsc, Hpres. by exists x. }
  assert (∀ s c, par_presente v s c →
            celula p s c =
            Some (mean (usd <$> filter (λ r, senioridade r = Some s ∧
                                             contrato r = Some c) (rows v))))
    as Hcel.
  { intros s c Hsc.
    rewrite (celula_dentro _ _ _ _ Hp)
      by ((apply Hidx'; by exists c) || (apply Hcol'; by exists s)).
    f_equal. apply procurar_elem_of; [done|]. apply Hspec. by split. }
  split; [exact Hp|]. split; [by split|].
  split; [exact Hidx'|]. split; [exact Hcol'|].
  split; [exact Hcel|]. split; [|split; [exact Haus|]].
  - intros s c Hsc. rewrite (Hcel s c Hsc). unfold salarios. split.
    + rewrite <- mean_None. split; [by intros [= ->]|by intros ->].
    + intros Hex. f_equal. by apply mean_exato.
  - intros s c Hsc.
    destruct (decide (s ∈ piv_index p)) as [Hs|Hs];
      [destruct (decide (c ∈ piv_columns p)) as [Hc|Hc]|].
    + by rewrite Haus.
    + rewrite celula_fora; [done|by right].
    + rewrite celula_fora; [done|by left].
Qed.

Lemma heatmap_media_por_par_witness :
  ∃ p, piv exemplo = inr p ∧
       celula p "senior" "integral" =
         Some (Some (round64 (Q2Qc (350000 # 3)))).
Proof.
  destruct (heatmap_media_por_par exemplo eq_refl)
    as (p & Hp & _ & _ & _ & _ & Hpin & _).
  exists p. split; [done|].
  assert (par_presente exemplo "senior" "integral") as Hsc.
  { exists (registro 2023 "Data Scientist" "USA" 100000). split; [left|done]. }
  destruct (Hpin _ _ Hsc) as [_ Hex]. rewrite Hex.
  - apply (bool_decide_unpack _). by vm_compute.
  - apply inteiros_somas_exatas. exists [100000; 200000; 50000]%Z.
    split; [reflexivity|]. split; [repeat constructor; lia|reflexivity].
Defined.

(** On the three-record example the three salaries 100000, 200000 and
    50000 belong to the pair (senior, integral); their exact mean is
    350000/3, which is no binary64 value, and the cell holds the binary64
    value nearest to it, 116666.66666666667. *)
Lemma heatmap_media_exata_contraexemplo :
  ∃ p, piv exemplo = inr p ∧
    par_presente exemplo "senior" "integral" ∧
    media (salarios (λ r, senioridade r = Some "senior" ∧
                          contrato r = Some "integral") (rows exemplo)) =
      Q2Qc (350000 # 3) ∧
    celula p "senior" "integral" =
      Some (Some (Q2Qc (8017272285866667 # 68719476736))) ∧
    celula p "senior" "integral" ≠ Some (Some (Q2Qc (350000 # 3))).
Proof.
  assert (par_presente exemplo "senior" "integral") as Hsc.
  { exists (registro 2023 "Data Scientist" "USA" 100000). split; [left|done]. }
  destruct (media_sen_contrato_agregado exemplo) as [Hnd _].
  pose proof (pivot_ok _ Hnd) as Hp. clear Hnd.
  eexists. split; [exact Hp|]. clear Hp.
  split; [exact Hsc|]. clear Hsc.
  split; [por_calculo|]. split; por_calculo.
Qed.

(** ** Top titles by mean salary *)

Lemma Qc_leb_le x y : Qc_leb x y = true ↔ (x ≤ y)%Qc.
Proof. unfold Qc_leb. apply bool_decide_eq_true. Qed.

Lemma Qc_leb_total x y : Qc_leb x y = false → Qc_leb y x = true.
Proof.
  unfold Qc_leb. rewrite bool_decide_eq_false, bool_decide_eq_true.
  intros Hxy. by destruct (total Qcle x y).
Qed.

Lemma Qc_leb_trans x y z :
  Qc_leb x y = true → Qc_leb y z = true → Qc_leb x z = true.
Proof. rewrite !Qc_leb_le. apply Qcle_trans. Qed.

Lemma desc_nan_last_nao_menor a b : desc_nan_last a b = true ↔ nao_menor a b.
Proof. destruct a, b; simpl; try apply Qc_leb_le; naive_solver. Qed.

Lemma asc_nan_last_crescente a b : asc_nan_last a b = true ↔ crescente a b.
Proof. destruct a, b; simpl; try apply Qc_leb_le; naive_solver. Qed.

Lemma desc_nan_last_total a b :
  desc_nan_last a b = false → desc_nan_last b a = true.
Proof. destruct a, b; simpl; try done. apply Qc_leb_total. Qed.

Lemma desc_nan_last_trans a b c :
  desc_nan_last a b = true → desc_nan_last b c = true → desc_nan_last a c = true.
Proof.
  destruct a, b, c; simpl; try done. intros ??. by eapply Qc_leb_trans.
Qed.

Lemma asc_nan_last_total a b :
  asc_nan_last a b = false → asc_nan_last b a = true.
Proof. destruct a, b; simpl; try done. apply Qc_leb_total. Qed.

Lemma asc_nan_last_trans a b c :
  asc_nan_last a b = true → asc_nan_last b c = true → asc_nan_last a c = true.
Proof.
  destruct a, b, c; simpl; try done. apply Qc_leb_trans.
Qed.

Section nlargest_lemmas.
Context {K V : Type} (ge : V → V → bool).
Context (ge_total : ∀ a b, ge a b = false → ge b a = true).
Context (ge_trans : ∀ a b c, ge a b = true → ge b c = true → ge a c = true).

Lemma nlargest_length n (s : list (K * V)) :
  length (nlargest ge n s) = min n (length s).
Proof. unfold nlargest. by rewrite length_take, length_ordenar. Qed.

Lemma nlargest_resto n (s : list (K * V)) :
  nlargest ge n s ++ drop n (ordenar (λ p q, ge p.2 q.2) s) ≡ₚ s.
Proof. unfold nlargest. by rewrite take_drop, ordenar_Permutation. Qed.

Lemma nlargest_elem_of n (s : list (K * V)) x :
  x ∈ nlargest ge n s → x ∈ s.
Proof.
  intros Hx. rewrite <- (nlargest_resto n s). apply elem_of_app. by left.
Qed.

Lemma nlargest_domina n (s : list (K * V)) x y :
  x ∈ nlargest ge n s → y ∈ s → y ∉ nlargest ge n s → ge x.2 y.2 = true.
Proof.
  intros Hx Hy Hny.
  rewrite <- (nlargest_resto n s) in Hy.
  apply elem_of_app in Hy as [Hy|Hy]; [done|].
  pose proof (ordenar_StronglySorted (λ p q : K * V, ge p.2 q.2)) as Hs.
  specialize (Hs (λ p q, ge_total p.2 q.2) (λ p q r, ge_trans p.2 q.2 r.2) s).
  rewrite <- (take_drop n) in Hs.
  by apply (StronglySorted_app_1_elem_of _ _ _ x y Hs).
Qed.

Lemma nlargest_NoDup_fst n (s : list (K * V)) :
  NoDup (s.*1) → NoDup ((nlargest ge n s).*1).
Proof.
  intros Hnd. rewrite <- (nlargest_resto n s), fmap_app in Hnd.
  by apply NoDup_app in Hnd as [Hnd _].
Qed.
End nlargest_lemmas.

Lemma sort_values_Permutation {K} (s : list (K * option Qc)) :
  sort_values s ≡ₚ s.
Proof. apply ordenar_Permutation. Qed.

Lemma StronglySorted_impl {A} (R1 R2 : relation A) (l : list A) :
  (∀ x y, R1 x y → R2 x y) → StronglySorted R1 l → StronglySorted R2 l.
Proof.
  intros HR. induction 1 as [|x l _ IH Hx]; constructor; [done|].
  eapply Forall_impl; [exact Hx|]. intros y. apply HR.
Qed.

Lemma sort_values_crescente {K} (s : list (K * option Qc)) :
  StronglySorted (λ p q, crescente p.2 q.2) (sort_values s).
Proof.
  apply (StronglySorted_impl (λ p q : K * option Qc, asc_nan_last p.2 q.2 = true)).
  - intros p q. apply asc_nan_last_crescente.
  - apply ordenar_StronglySorted.
    + intros p q. apply asc_nan_last_total.
    + intros p q r. apply asc_nan_last_trans.
Qed.

Lemma media_por_cargo_agregado v :
  agregado_por cargo (λ g, mean (usd <$> g)) (rows v) (media_por_cargo v).
Proof. apply agg_groupby_agregado. Qed.

Lemma length_media_por_cargo v :
  length (media_por_cargo v) = length (unique (dropna (cargo <$> rows v))).
Proof.
  rewrite <- (length_fmap fst). unfold media_por_cargo.
  rewrite fst_agg_groupby. apply length_ordenar.
Qed.

(** C2. The pipeline groups the view by title and takes the mean salary of
    each title ([media_por_cargo]); [top_cargos] keeps 10 of these groups,
    or all of them when there are fewer than 10 distinct titles: never
    more than 10, no title twice, each kept line being a group of the view
    with its mean, and every group left out having a mean no larger than
    that of every kept group; the kept lines are in ascending order of
    mean.  The box-plot selection [top10_cargos] is the same set of
    titles.  The mean of a title is the binary64 mean of the salaries of
    its records: NaN exactly when none of them has a salary, and the exact
    mean rounded once to binary64 when the running totals of the salaries
    need no rounding, as with whole-number salaries.  On the three-record
    example the chart shows Analyst 50000 below Data Scientist 150000; of
    twelve titles with means 1000 to 12000 the two lowest are left out. *)
Theorem top10_por_media (v : DataFrame) :
  agregado_por cargo (λ g, mean (usd <$> g)) (rows v) (media_por_cargo v) ∧
  length (top_cargos v) =
    min 10 (length (unique (dropna (cargo <$> rows v)))) ∧
  (length (top_cargos v) ≤ 10)%nat ∧
  NoDup ((top_cargos v).*1) ∧
  (∀ x, x ∈ top_cargos v → x ∈ media_por_cargo v) ∧
  (∀ x y, x ∈ top_cargos v → y ∈ media_por_cargo v → y ∉ top_cargos v →
          nao_menor x.2 y.2) ∧
  StronglySorted (λ p q, crescente p.2 q.2) (top_cargos v) ∧
  top10_cargos v ≡ₚ (top_cargos v).*1 ∧
  grafico_cargos v =
    (if df_empty v then Aviso "Nenhum dado para exibir no gráfico de cargos."
     else Grafico (top_cargos v)) ∧
  (∀ t x, (t, x) ∈ media_por_cargo v →
     (x = None ↔ salarios (λ r, cargo r = Some t) (rows v) = []) ∧
     (somas_exatas (salarios (λ r, cargo r = Some t) (rows v)) →
      x = media_f64 (salarios (λ r, cargo r = Some t) (rows v)))) ∧
  top_cargos exemplo =
    [("Analyst", Some (Qc_of_Z 50000)); ("Data Scientist", Some (Qc_of_Z 150000))] ∧
  (top_cargos doze_cargos).*2 =
    Some ∘ Qc_of_Z <$>
      [4000; 4000; 5000; 6000; 7000; 8000; 9000; 10000; 11000; 12000]%Z.
Proof.
  assert (top_cargos v ≡ₚ nlargest desc_nan_last 10 (media_por_cargo v)) as Hperm
    by apply sort_values_Permutation.
  assert (length (top_cargos v) =
          min 10 (length (unique (dropna (cargo <$> rows v))))) as Hlen.
  { by rewrite Hperm, nlargest_length, length_media_por_cargo. }
  split; [apply media_por_cargo_agregado|].
  split; [done|]. split; [lia|].
  split.
  { rewrite Hperm. apply nlargest_NoDup_fst, media_por_cargo_agregado. }
  split.
  { intros x. rewrite Hperm. apply nlargest_elem_of. }
  split.
  { intros x y. rewrite Hperm. intros Hx Hy Hny.
    apply desc_nan_last_nao_menor.
    eapply (nlargest_domina desc_nan_last desc_nan_last_total desc_nan_last_trans);
      eauto. }
  split; [apply sort_values_crescente|].
  split; [unfold top10_cargos; by rewrite Hperm|].
  split; [unfold grafico_cargos; by destruct (df_empty v)|].
  split; [|split; por_calculo].
  intros t x Hx. apply media_por_cargo_agregado in Hx as [_ ->].
  unfold salarios. split; [apply mean_None|apply mean_exato].
Qed.


(** ** Orders on keys *)

Lemma Z_le_total a b : Z_le a b = false → Z_le b a = true.
Proof. unfold Z_le. rewrite Z.leb_gt, Z.leb_le. lia. Qed.

Lemma Z_le_trans a b c : Z_le a b = true → Z_le b c = true → Z_le a c = true.
Proof. unfold Z_le. rewrite !Z.leb_le. lia. Qed.

Lemma Z_le_antisym a b : Z_le a b = true → Z_le b a = true → a = b.
Proof. unfold Z_le. rewrite !Z.leb_le. lia. Qed.

Lemma str_le_total a b : str_le a b = false → str_le b a = true.
Proof.
  unfold str_le. intros Hab. destruct (String.leb_total a b) as [H|H]; [|done].
  by rewrite H in Hab.
Qed.

Lemma str_le_trans a b c : str_le a b = true → str_le b c = true → str_le a c = true.
Proof.
  unfold str_le. intros Hab Hbc. apply Is_true_true.
  apply (transitivity (R := String.le) (y := b)); by apply Is_true_true.
Qed.

Lemma str_le_antisym a b : str_le a b = true → str_le b a = true → a = b.
Proof. apply String.leb_antisym. Qed.

Section par_le_lemmas.
Context {A B : Type} `{EqDecision A} (la : A → A → bool) (lb : B → B → bool).
Context (la_total : ∀ a b, la a b = false → la b a = true).
Context (la_trans : ∀ a b c, la a b = true → la b c = true → la a c = true).
Context (la_antisym : ∀ a b, la a b = true → la b a = true → a = b).
Context (lb_total : ∀ a b, lb a b = false → lb b a = true).
Context (lb_trans : ∀ a b c, lb a b = true → lb b c = true → lb a c = true).

Lemma par_le_total p q : par_le la lb p q = false → par_le la lb q p = true.
Proof.
  unfold par_le. destruct (decide (p.1 = q.1)) as [Heq|Hne].
  - rewrite decide_True by done. apply lb_total.
  - rewrite decide_False by done. apply la_total.
Qed.

Lemma par_le_trans p q r :
  par_le la lb p q = true → par_le la lb q r = true → par_le la lb p r = true.
Proof.
  unfold par_le.
  destruct (decide (p.1 = q.1)) as [Hpq|Hpq], (decide (q.1 = r.1)) as [Hqr|Hqr],
    (decide (p.1 = r.1)) as [Hpr|Hpr]; try congruence.
  - apply lb_trans.
  - intros H1 H2. rewrite Hpr in H1. destruct Hqr. by apply la_antisym.
  - apply la_trans.
Qed.
End par_le_lemmas.

Section ordenado_lemmas.
Context {A : Type} (le : A → A → bool).

Lemma ordenar_ordenado l :
  StronglySorted (λ a b, le a b = true) l → ordenar le l = l.
Proof.
  induction 1 as [|x l Hl IH Hx]; [done|]. simpl. rewrite IH.
  destruct l as [|y l]; [done|]. simpl.
  apply Forall_cons in Hx as [-> _]. done.
Qed.

Lemma StronglySorted_fmap_inv {B} (f : B → A) (l : list B) :
  StronglySorted (λ a b, le a b = true) (f <$> l) →
  StronglySorted (λ p q, le (f p) (f q) = true) l.
Proof.
  induction l as [|x l IH]; csimpl; [constructor|].
  intros [Hx Hl]%StronglySorted_cons. constructor; [by apply IH|].
  apply Forall_forall. intros y Hy.
  rewrite Forall_forall in Hx. apply Hx. by apply list_elem_of_fmap_2.
Qed.
End ordenado_lemmas.

Lemma disponiveis_crescente {A} `{EqDecision A} (le : A → A → bool)
    (s : list (option A)) :
  (∀ a b, le a b = false → le b a = true) →
  (∀ a b c, le a b = true → le b c = true → le a c = true) →
  crescente_sem_repetir le (ordenar le (unique (dropna s))).
Proof.
  intros Htot Htrans. split.
  - by apply ordenar_StronglySorted.
  - apply NoDup_ordenar, NoDup_unique.
Qed.

Lemma elem_of_disponiveis_coluna {A} `{EqDecision A} (le : A → A → bool)
    (f : Row → option A) (l : list Row) (a : A) :
  a ∈ ordenar le (unique (dropna (f <$> l))) ↔ ∃ r, r ∈ l ∧ f r = Some a.
Proof. rewrite elem_of_disponiveis, list_elem_of_fmap. naive_solver. Qed.

Lemma par_str_str_total p q :
  par_le str_le str_le p q = false → par_le str_le str_le q p = true.
Proof. apply par_le_total; apply str_le_total. Qed.

Lemma par_str_str_trans p q r :
  par_le str_le str_le p q = true → par_le str_le str_le q r = true →
  par_le str_le str_le p r = true.
Proof.
  apply par_le_trans; [apply str_le_trans|apply str_le_antisym|apply str_le_trans].
Qed.

Lemma par_Z_str_total p q :
  par_le Z_le str_le p q = false → par_le Z_le str_le q p = true.
Proof. apply par_le_total; [apply Z_le_total|apply str_le_total]. Qed.

Lemma par_Z_str_trans p q r :
  par_le Z_le str_le p q = true → par_le Z_le str_le q r = true →
  par_le Z_le str_le p r = true.
Proof.
  apply par_le_trans; [apply Z_le_trans|apply Z_le_antisym|apply str_le_trans].
Qed.

Lemma agg_groupby_crescente {K V} `{EqDecision K} (le : K → K → bool)
    (key : Row → option K) (f : list Row → V) (l : list Row) :
  (∀ a b, le a b = false → le b a = true) →
  (∀ a b c, le a b = true → le b c = true → le a c = true) →
  crescente_sem_repetir le ((agg f (groupby le key l)).*1).
Proof.
  intros Htot Htrans. rewrite fst_agg_groupby. by apply disponiveis_crescente.
Qed.

(** X1. Each of the four option lists of the sidebar is in ascending
    order, has no value twice, and holds exactly the values that occur
    (non-missing) in its column of the dataset. *)
Theorem opcoes_da_barra_lateral (df : DataFrame) :
  (crescente_sem_repetir Z_le (anos_disponiveis df) ∧
   ∀ a, a ∈ anos_disponiveis df ↔ ∃ r, r ∈ rows df ∧ ano r = Some a) ∧
  (crescente_sem_repetir str_le (senioridades_disponiveis df) ∧
   ∀ s, s ∈ senioridades_disponiveis df ↔ ∃ r, r ∈ rows df ∧ senioridade r = Some s) ∧
  (crescente_sem_repetir str_le (contratos_disponiveis df) ∧
   ∀ c, c ∈ contratos_disponiveis df ↔ ∃ r, r ∈ rows df ∧ contrato r = Some c) ∧
  (crescente_sem_repetir str_le (tamanhos_disponiveis df) ∧
   ∀ t, t ∈ tamanhos_disponiveis df ↔ ∃ r, r ∈ rows df ∧ tamanho_empresa r = Some t).
Proof.
  split; [|split; [|split]];
    (split; [|intros x; apply elem_of_disponiveis_coluna]);
    apply disponiveis_crescente;
    first [exact Z_le_total|exact Z_le_trans|exact str_le_total|exact str_le_trans].
Qed.

(** X5. Every group-by table comes out in ascending order of its key
    (lexicographic for a pair of keys) with no key twice; in particular the
    [sort_values(["ano", "residencia_iso3"])] of the animated map changes
    nothing. *)
Theorem tabelas_em_ordem_de_chave (v : DataFrame) (cargo_sel : string) :
  crescente_sem_repetir str_le ((media_por_cargo v).*1) ∧
  crescente_sem_repetir str_le ((media_ds_pais v).*1) ∧
  crescente_sem_repetir (par_le str_le str_le) ((df_treemap v).*1) ∧
  crescente_sem_repetir (par_le str_le str_le) ((df_sun v).*1) ∧
  crescente_sem_repetir (par_le str_le str_le) ((media_sen_contrato v).*1) ∧
  crescente_sem_repetir (par_le Z_le str_le) ((df_linha v).*1) ∧
  crescente_sem_repetir (par_le Z_le str_le) ((df_anim v cargo_sel).*1) ∧
  df_anim v cargo_sel =
    agg (λ g, mean (usd <$> g))
      (groupby (par_le Z_le str_le) (chave2 ano residencia_iso3)
         (linhas_cargo v cargo_sel)).
Proof.
  assert (df_anim v cargo_sel =
    agg (λ g, mean (usd <$> g))
      (groupby (par_le Z_le str_le) (chave2 ano residencia_iso3)
         (linhas_cargo v cargo_sel))) as Hanim.
  { unfold df_anim, media_ano_pais. apply ordenar_ordenado.
    apply (StronglySorted_fmap_inv (par_le Z_le str_le) fst).
    apply (agg_groupby_crescente _ (chave2 ano residencia_iso3));
      first [exact par_Z_str_total|exact par_Z_str_trans]. }
  split; [apply agg_groupby_crescente; first [exact str_le_total|exact str_le_trans]|].
  split; [apply agg_groupby_crescente; first [exact str_le_total|exact str_le_trans]|].
  split; [apply agg_groupby_crescente; first [exact par_str_str_total|exact par_str_str_trans]|].
  split; [apply agg_groupby_crescente; first [exact par_str_str_total|exact par_str_str_trans]|].
  split; [apply agg_groupby_crescente; first [exact par_str_str_total|exact par_str_str_trans]|].
  split; [apply agg_groupby_crescente; first [exact par_Z_str_total|exact par_Z_str_trans]|].
  split; [|done]. rewrite Hanim.
  apply (agg_groupby_crescente _ (chave2 ano residencia_iso3));
    first [exact par_Z_str_total|exact par_Z_str_trans].
Qed.


Lemma DataFrame_ext (v w : DataFrame) :
  tem_residencia v = tem_residencia w → rows v = rows w → v = w.
Proof. destruct v, w; simpl; congruence. Qed.

Lemma elem_of_rows_df_filtrado df sel r :
  r ∈ rows (df_filtrado df sel) ↔ r ∈ rows df ∧ satisfaz sel r.
Proof.
  rewrite rows_df_filtrado, list_elem_of_filter, satisfaz_b_true. naive_solver.
Qed.

Lemma satisfaz_incluida s s' r : sel_incluida s s' → satisfaz s r → satisfaz s' r.
Proof.
  intros (Ha & Hs & Hc & Ht) ((a & ? & ?) & (x & ? & ?) & (c & ? & ?) & (t & ? & ?)).
  repeat split; eexists; split; eauto.
Qed.

Lemma rows_df_filtrado_duas_vezes df s1 s2 :
  rows (df_filtrado (df_filtrado df s1) s2) =
  filter (λ r, satisfaz_b s2 r = true ∧ satisfaz_b s1 r = true) (rows df).
Proof. by rewrite !rows_df_filtrado, list_filter_filter. Qed.

(** X2. Narrowing a selection: when every set of [s] is contained in
    the corresponding set of [s'], filtering the view of [s'] by [s] gives
    the view of [s], which is a sub-sequence of the view of [s'] and has no
    more records. *)
Theorem filtro_estreitar (df : DataFrame) (s s' : Selecao) :
  sel_incluida s s' →
  df_filtrado (df_filtrado df s') s = df_filtrado df s ∧
  sublist (rows (df_filtrado df s)) (rows (df_filtrado df s')) ∧
  (length (rows (df_filtrado df s)) ≤ length (rows (df_filtrado df s')))%nat.
Proof.
  intros Hinc.
  assert (df_filtrado (df_filtrado df s') s = df_filtrado df s) as Heq.
  { apply DataFrame_ext; [done|].
    rewrite rows_df_filtrado_duas_vezes, rows_df_filtrado.
    apply list_filter_iff. intros r. rewrite !satisfaz_b_true.
    split; [naive_solver|]. intros Hs. split; [done|]. by eapply satisfaz_incluida. }
  assert (sublist (rows (df_filtrado df s)) (rows (df_filtrado df s'))) as Hsub.
  { rewrite <- Heq, (rows_df_filtrado (df_filtrado df s')). apply sublist_filter. }
  split; [done|]. split; [done|]. by apply sublist_length.
Qed.

Lemma filtro_estreitar_witness :
  df_filtrado (df_filtrado exemplo (mkSel [2023%Z; 2024%Z] ["senior"] ["integral"] ["M"]))
              (mkSel [2024%Z] ["senior"] ["integral"] ["M"]) =
  df_filtrado exemplo (mkSel [2024%Z] ["senior"] ["integral"] ["M"]).
Proof.
  apply filtro_estreitar. repeat split; try done.
  intros a Ha. apply list_elem_of_singleton in Ha as ->. right; left.
Defined.

(** X3. Two filters commute: filtering by [s1] then by [s2] gives the
    same frame as filtering by [s2] then by [s1], namely the records of
    the dataset that satisfy both selections. *)
Theorem filtros_comutam (df : DataFrame) (s1 s2 : Selecao) :
  df_filtrado (df_filtrado df s1) s2 = df_filtrado (df_filtrado df s2) s1 ∧
  ∀ r, r ∈ rows (df_filtrado (df_filtrado df s1) s2) ↔
       r ∈ rows df ∧ satisfaz s1 r ∧ satisfaz s2 r.
Proof.
  split.
  - apply DataFrame_ext; [done|]. rewrite !rows_df_filtrado_duas_vezes.
    apply list_filter_iff. naive_solver.
  - intros r. rewrite !elem_of_rows_df_filtrado. naive_solver.
Qed.

Lemma filter_todos {A} (P : A → Prop) `{∀ x, Decision (P x)} (l : list A) :
  (∀ x, x ∈ l → P x) → filter P l = l.
Proof.
  induction l as [|x l IH]; intros HP; [done|].
  rewrite filter_cons_True by (apply HP; left).
  f_equal. apply IH. intros y Hy. apply HP. by right.
Qed.

(** X4. A filtered view is unchanged by filtering it with the option
    lists computed from the view itself, and those option lists are
    contained in the selection that produced the view and in the option
    lists of the dataset. *)
Theorem vista_fechada_para_suas_opcoes (df : DataFrame) (sel : Selecao) :
  df_filtrado (df_filtrado df sel) (selecao_padrao (df_filtrado df sel)) =
    df_filtrado df sel ∧
  sel_incluida (selecao_padrao (df_filtrado df sel)) sel ∧
  sel_incluida (selecao_padrao (df_filtrado df sel)) (selecao_padrao df).
Proof.
  split; [|split].
  - apply DataFrame_ext; [done|].
    rewrite (rows_df_filtrado (df_filtrado df sel)).
    apply filter_todos. intros r Hr. apply satisfaz_b_true.
    apply satisfaz_padrao; [done|].
    apply elem_of_rows_df_filtrado in Hr as [_ Hr]. by eapply satisfaz_completo.
  - repeat split; intros x [r [[_ Hs]%elem_of_rows_df_filtrado Hx]]%elem_of_disponiveis_coluna;
      destruct Hs as ((a & ? & ?) & (s & ? & ?) & (c & ? & ?) & (t & ? & ?));
      congruence.
  - repeat split; intros x [r [[Hr _]%elem_of_rows_df_filtrado Hx]]%elem_of_disponiveis_coluna;
      apply elem_of_disponiveis_coluna; by exists r.
Qed.


(** ** KPIs on a non-empty view *)

Lemma cargo_em_columns v : "cargo" ∈ columns v.
Proof.
  unfold columns, colunas_base. apply elem_of_app. left.
  do 4 right. left.
Qed.

Lemma dropna_nil_iff {A} (s : list (option A)) :
  dropna s = [] ↔ ∀ c, c ∈ s → c = None.
Proof.
  split.
  - intros Hs [x|] Hc; [|done]. apply elem_of_dropna in Hc.
    rewrite Hs in Hc. by apply elem_of_nil in Hc.
  - intros Hs. destruct (dropna s) as [|x xs] eqn:Hd; [done|].
    assert (x ∈ dropna s) as Hx by (rewrite Hd; left).
    apply elem_of_dropna in Hx. by apply Hs in Hx.
Qed.

Lemma contar_dropna_fmap {A} `{EqDecision A} (f : Row → option A) (x : A)
    (l : list Row) :
  contar x (dropna (f <$> l)) = length (filter (λ r, f r = Some x) l).
Proof.
  unfold contar, dropna. induction l as [|r l IH]; [done|].
  rewrite fmap_cons, (filter_cons (λ r, f r = Some x)).
  destruct (f r) as [y|] eqn:Hy; cbn [omap list_omap id].
  - rewrite filter_cons. destruct (decide (y = x)) as [->|Hne].
    + rewrite decide_True by done. simpl. by rewrite IH.
    + rewrite decide_False by congruence. done.
  - rewrite decide_False by done. done.
Qed.

Lemma contar_zero {A} `{EqDecision A} (x : A) (l : list A) :
  x ∉ l → contar x l = 0%nat.
Proof.
  intros Hx. unfold contar.
  destruct (filter (λ y, y = x) l) as [|y k] eqn:Hf; [done|].
  assert (y ∈ filter (λ y, y = x) l) as Hy by (rewrite Hf; left).
  apply list_elem_of_filter in Hy as [-> Hy]. done.
Qed.

Lemma elem_of_mode s t :
  t ∈ mode s ↔
  t ∈ dropna s ∧ ∀ t', (contar t' (dropna s) ≤ contar t (dropna s))%nat.
Proof.
  unfold mode. rewrite elem_of_ordenar, list_elem_of_filter, elem_of_unique.
  set (vs := dropna s).
  set (cs := (λ v, contar v vs) <$> unique vs).
  assert (∀ t', (contar t' vs ≤ max_list cs)%nat) as Hmax.
  { intros t'. destruct (decide (t' ∈ vs)) as [Hin|Hnin].
    - apply max_list_elem_of_le, list_elem_of_fmap. exists t'.
      split; [done|]. by apply elem_of_unique.
    - rewrite contar_zero by done. lia. }
  split.
  - intros [Hc Ht]. split; [done|]. intros t'. rewrite Hc. apply Hmax.
  - intros [Ht Hall]. split; [|done].
    assert (cs ≠ []) as Hne.
    { unfold cs. destruct (unique vs) eqn:Hu; [|done].
      apply elem_of_unique in Ht. rewrite Hu in Ht. by apply elem_of_nil in Ht. }
    apply max_list_elem_of, list_elem_of_fmap in Hne as (t0 & Ht0 & _).
    specialize (Hall t0). specialize (Hmax t). lia.
Qed.

Lemma mode_nil_iff s : mode s = [] ↔ dropna s = [].
Proof.
  split.
  - intros Hm. destruct (dropna s) as [|x xs] eqn:Hd; [done|]. exfalso.
    set (vs := dropna s) in *.
    set (cs := (λ v, contar v vs) <$> unique vs).
    assert (cs ≠ []) as Hne.
    { unfold cs. destruct (unique vs) eqn:Hu; [|done].
      assert (x ∈ unique vs) as Hx by (apply elem_of_unique; rewrite Hd; left).
      rewrite Hu in Hx. by apply elem_of_nil in Hx. }
    apply max_list_elem_of, list_elem_of_fmap in Hne as (t0 & Ht0 & Hin).
    assert (t0 ∈ mode s) as Hmode.
    { unfold mode. apply elem_of_ordenar, list_elem_of_filter. by split. }
    rewrite Hm in Hmode. by apply elem_of_nil in Hmode.
  - intros Hd. unfold mode. by rewrite Hd.
Qed.

Lemma mode_cabeca s t k :
  mode s = t :: k → ∀ t', t' ∈ mode s → str_le t t' = true.
Proof.
  intros Hm t' Ht'.
  assert (StronglySorted (λ a b, str_le a b = true) (mode s)) as Hs.
  { unfold mode. apply ordenar_StronglySorted;
      [exact str_le_total|exact str_le_trans]. }
  rewrite Hm in Hs, Ht'. apply StronglySorted_cons in Hs as [Hall _].
  apply elem_of_cons in Ht' as [->|Ht'].
  - destruct (str_le t t) eqn:Htt; [done|].
    pose proof (str_le_total _ _ Htt) as Htt'. congruence.
  - rewrite Forall_forall in Hall. by apply Hall.
Qed.

Lemma metricas_nao_vazia v :
  df_empty v = false →
  metricas v =
    inr (mkMetricas (mean (usd <$> rows v))
           (round64 <$> max_skipna (usd <$> rows v))
           (length (rows v))
           (match mode (cargo <$> rows v) with t :: _ => t | [] => "N/D" end)).
Proof.
  intros Hv. unfold metricas. rewrite Hv. cbn [negb].
  rewrite (bool_decide_eq_true_2 _ (cargo_em_columns v)). cbn [andb].
  destruct (mode (cargo <$> rows v)) as [|t k] eqn:Hm; done.
Qed.

(** X6. The KPI block raises on no view, empty or not: the guard on
    [mode().empty] protects [iat[0]].  The record count it reports is the
    number of rows of the view, and the mean salary is NaN exactly when the
    maximum salary is. *)
Theorem metricas_nunca_falha (v : DataFrame) :
  ∃ m, metricas v = inr m ∧ total_registros m = length (rows v) ∧
       (salario_medio m = None ↔ salario_maximo m = None).
Proof.
  destruct (df_empty v) eqn:Hv.
  - eexists. split; [unfold metricas; by rewrite Hv|]. simpl.
    unfold df_empty in Hv. destruct (rows v); [|done]. done.
  - eexists. split; [by apply metricas_nao_vazia|]. simpl. split; [done|].
    unfold mean, max_skipna. by destruct (dropna (usd <$> rows v)).
Qed.

(** X7. On a non-empty view the most frequent title is "N/D" when no
    record has a title; otherwise it is a title of the view that no other
    title outnumbers, and among the titles with that same count it is the
    first in string order. *)
Theorem cargo_mais_frequente_correto (v : DataFrame) (m : Metricas) :
  df_empty v = false → metricas v = inr m →
  ((∀ r, r ∈ rows v → cargo r = None) → cargo_mais_frequente m = "N/D") ∧
  ((∃ r, r ∈ rows v ∧ is_Some (cargo r)) →
     (0 < ocorrencias (cargo_mais_frequente m) v)%nat ∧
     ∀ t, (ocorrencias t v ≤ ocorrencias (cargo_mais_frequente m) v)%nat ∧
          (ocorrencias t v = ocorrencias (cargo_mais_frequente m) v →
           str_le (cargo_mais_frequente m) t = true)).
Proof.
  intros Hv Hm. rewrite metricas_nao_vazia in Hm by done.
  injection Hm as <-. simpl. unfold ocorrencias.
  setoid_rewrite <- (contar_dropna_fmap cargo).
  split.
  - intros Hnone.
    assert (mode (cargo <$> rows v) = []) as ->; [|done].
    apply mode_nil_iff, dropna_nil_iff. intros c [r [-> Hr]]%list_elem_of_fmap.
    by apply Hnone.
  - intros (r & Hr & [t0 Ht0]).
    destruct (mode (cargo <$> rows v)) as [|t k] eqn:Hmode.
    { apply mode_nil_iff in Hmode.
      assert (t0 ∈ dropna (cargo <$> rows v)) as Hin.
      { apply elem_of_dropna. rewrite <- Ht0. by apply list_elem_of_fmap_2. }
      rewrite Hmode in Hin. by apply elem_of_nil in Hin. }
    assert (t ∈ mode (cargo <$> rows v)) as Ht by (rewrite Hmode; left).
    pose proof Ht as [Hin Hmax]%elem_of_mode.
    split.
    + unfold contar.
      destruct (filter _ (dropna (cargo <$> rows v))) as [|y ys] eqn:Hf;
        [|simpl; lia].
      assert (t ∈ filter (λ x, x = t) (dropna (cargo <$> rows v))) as Hc
        by (by apply list_elem_of_filter).
      rewrite Hf in Hc. by apply elem_of_nil in Hc.
    + intros t'. split; [apply Hmax|]. intros Heq.
      apply (mode_cabeca _ _ _ Hmode), elem_of_mode.
      assert (t' ∈ dropna (cargo <$> rows v)) as Hin'.
      { destruct (decide (t' ∈ dropna (cargo <$> rows v))) as [|Hnin]; [done|].
        exfalso. rewrite (contar_zero t') in Heq by done.
        assert (t ∈ filter (λ x, x = t) (dropna (cargo <$> rows v))) as Hc
          by (by apply list_elem_of_filter).
        unfold contar in Heq.
        destruct (filter _ (dropna (cargo <$> rows v))); [|done].
        by apply elem_of_nil in Hc. }
      split; [done|]. intros t''. rewrite Heq. apply Hmax.
Qed.

Lemma cargo_mais_frequente_correto_witness :
  (ocorrencias "Analyst" exemplo ≤ ocorrencias "Data Scientist" exemplo)%nat.
Proof.
  pose proof (cargo_mais_frequente_correto exemplo
    (mkMetricas (mean (usd <$> rows exemplo))
       (round64 <$> max_skipna (usd <$> rows exemplo))
       3 "Data Scientist") eq_refl eq_refl) as [_ H].
  apply H. exists (registro 2023 "Data Scientist" "USA" 100000).
  split; [left|by eexists].
Defined.

Lemma Qc_max_ge_l a b : (a ≤ Qc_max a b)%Qc.
Proof.
  unfold Qc_max. destruct (Qc_leb a b) eqn:Hab.
  - by apply Qc_leb_le.
  - apply Qcle_refl.
Qed.

Lemma Qc_max_ge_r a b : (b ≤ Qc_max a b)%Qc.
Proof.
  unfold Qc_max. destruct (Qc_leb a b) eqn:Hab.
  - apply Qcle_refl.
  - apply Qc_leb_le. by apply Qc_leb_total.
Qed.

Lemma foldr_Qc_max_spec v vs :
  foldr Qc_max v vs ∈ v :: vs ∧ ∀ x, x ∈ v :: vs → (x ≤ foldr Qc_max v vs)%Qc.
Proof.
  induction vs as [|y vs [IHin IHle]]; simpl.
  - split; [left|]. intros x ->%list_elem_of_singleton. apply Qcle_refl.
  - split.
    + unfold Qc_max at 1. destruct (Qc_leb y (foldr Qc_max v vs)).
      * apply elem_of_cons in IHin as [->|IHin]; [left|right; by right].
      * right; left.
    + intros x Hx.
      assert (x = y ∨ x ∈ v :: vs) as [->|Hx'].
      { apply elem_of_cons in Hx as [->|[->|Hx]%elem_of_cons];
          [right; left|by left|right; by right]. }
      * apply Qc_max_ge_l.
      * eapply Qcle_trans; [by apply IHle|apply Qc_max_ge_r].
Qed.

Lemma max_skipna_Some s M :
  max_skipna s = Some M → Some M ∈ s ∧ ∀ x, Some x ∈ s → (x ≤ M)%Qc.
Proof.
  unfold max_skipna. destruct (dropna s) as [|v vs] eqn:Hd; [done|].
  intros [= <-]. destruct (foldr_Qc_max_spec v vs) as [Hin Hle].
  rewrite <- Hd in Hin, Hle. split.
  - by apply elem_of_dropna.
  - intros x Hx. by apply Hle, elem_of_dropna.
Qed.

(** *** Means of whole-number salaries *)

Lemma dropna_sublist {A} (l1 l2 : list (option A)) :
  l1 `sublist_of` l2 → dropna l1 `sublist_of` dropna l2.
Proof.
  unfold dropna.
  induction 1 as [|[x|] l1 l2 _ IH|[x|] l1 l2 _ IH]; csimpl;
    [constructor|by constructor|done|by constructor|done].
Qed.

Lemma salarios_sublist (g l : list Row) :
  g `sublist_of` l → dropna (usd <$> g) `sublist_of` dropna (usd <$> l).
Proof. intros H. apply dropna_sublist. by apply fmap_sublist. Qed.

Lemma inteiros_limitados_sublist l1 l2 :
  l1 `sublist_of` l2 → inteiros_limitados l2 → inteiros_limitados l1.
Proof.
  intros Hsub (zs & -> & Hnn & Hlim).
  assert (∃ zs', l1 = Qc_of_Z <$> zs' ∧ Forall (λ z, (0 ≤ z)%Z) zs' ∧
                 (foldr Z.add 0 zs' ≤ foldr Z.add 0 zs)%Z) as (zs' & -> & Hnn' & Hle).
  { clear Hlim. revert l1 Hsub.
    induction Hnn as [|z zs Hz Hnn IH]; intros l1 Hsub.
    - apply sublist_nil_r in Hsub as ->. by exists [].
    - csimpl in Hsub. apply sublist_cons_r in Hsub as [Hsub|(l' & -> & Hsub)].
      + destruct (IH _ Hsub) as (zs' & -> & Hnn' & Hle).
        exists zs'. split; [done|]. split; [done|]. simpl. lia.
      + destruct (IH _ Hsub) as (zs' & -> & Hnn' & Hle).
        exists (z :: zs'). split; [done|]. split; [by constructor|]. simpl. lia. }
  exists zs'. split; [done|]. split; [done|lia].
Qed.

Lemma inteiros_limitados_elem vals x :
  inteiros_limitados vals → x ∈ vals →
  ∃ z, x = Qc_of_Z z ∧ (0 ≤ z < 2 ^ 53)%Z.
Proof.
  intros (zs & -> & Hnn & Hlim) [z [-> Hz]]%list_elem_of_fmap.
  exists z. split; [done|].
  pose proof (foldr_add_elem_le zs z Hnn Hz).
  rewrite Forall_forall in Hnn. pose proof (Hnn z Hz). lia.
Qed.

Lemma Qc_of_nat_S n :
  Qc_of_Z (Z.of_nat (S n)) = (Qc_of_Z (Z.of_nat n) + 1)%Qc.
Proof. by rewrite Nat2Z.inj_succ, <- Z.add_1_r, Z2Qc_inj_add, Z2Qc_inj_1. Qed.

Lemma Qc_of_nat_pos n : (0 < Qc_of_Z (Z.of_nat (S n)))%Qc.
Proof. rewrite <- Z2Qc_inj_0. apply (proj1 (Z2Qc_inj_lt _ _)). lia. Qed.

Lemma soma_le l M :
  (∀ x, x ∈ l → (x ≤ M)%Qc) → (soma l ≤ Qc_of_Z (Z.of_nat (length l)) * M)%Qc.
Proof.
  induction l as [|x l IH]; intros Hl.
  - unfold soma. cbn [foldr length]. change (Z.of_nat 0) with 0%Z.
    rewrite Z2Qc_inj_0, Qcmult_0_l. apply Qcle_refl.
  - cbn [soma foldr length]. rewrite Qc_of_nat_S, Qcmult_plus_distr_l, Qcmult_1_l.
    rewrite (Qcplus_comm _ M). apply Qcplus_le_compat.
    + apply Hl. left.
    + apply IH. intros y Hy. apply Hl. by right.
Qed.

Lemma soma_ge l M :
  (∀ x, x ∈ l → (M ≤ x)%Qc) → (Qc_of_Z (Z.of_nat (length l)) * M ≤ soma l)%Qc.
Proof.
  induction l as [|x l IH]; intros Hl.
  - unfold soma. cbn [foldr length]. change (Z.of_nat 0) with 0%Z.
    rewrite Z2Qc_inj_0, Qcmult_0_l. apply Qcle_refl.
  - cbn [soma foldr length]. rewrite Qc_of_nat_S, Qcmult_plus_distr_l, Qcmult_1_l.
    rewrite (Qcplus_comm _ M). apply Qcplus_le_compat.
    + apply Hl. left.
    + apply IH. intros y Hy. apply Hl. by right.
Qed.

Lemma media_vezes_n v vs :
  (media (v :: vs) * Qc_of_Z (Z.of_nat (length (v :: vs))))%Qc = soma (v :: vs).
Proof.
  unfold media. rewrite Qcmult_comm. apply Qcmult_div_r.
  intros H. pose proof (Qc_of_nat_pos (length vs)) as Hpos.
  simpl length in H. rewrite H in Hpos. by apply Qclt_not_eq in Hpos.
Qed.

Lemma media_le v vs M :
  (∀ x, x ∈ v :: vs → (x ≤ M)%Qc) → (media (v :: vs) ≤ M)%Qc.
Proof.
  intros Hl.
  apply (Qcmult_le_mono_pos_r _ _ (Qc_of_Z (Z.of_nat (length (v :: vs)))));
    [apply Qc_of_nat_pos|].
  rewrite media_vezes_n, (Qcmult_comm M). by apply soma_le.
Qed.

Lemma media_ge v vs M :
  (∀ x, x ∈ v :: vs → (M ≤ x)%Qc) → (M ≤ media (v :: vs))%Qc.
Proof.
  intros Hl.
  apply (Qcmult_le_mono_pos_r _ _ (Qc_of_Z (Z.of_nat (length (v :: vs)))));
    [apply Qc_of_nat_pos|].
  rewrite media_vezes_n, (Qcmult_comm M). by apply soma_ge.
Qed.

(** For whole-number salaries with a total below [2 ^ 53] the mean lies
    between any two of them that bound the others. *)
Lemma mean_entre s lo hi mu :
  inteiros_limitados (dropna s) →
  lo ∈ dropna s → hi ∈ dropna s →
  (∀ x, x ∈ dropna s → (lo ≤ x)%Qc ∧ (x ≤ hi)%Qc) →
  mean s = Some mu → (lo ≤ mu)%Qc ∧ (mu ≤ hi)%Qc.
Proof.
  intros Hint Hlo Hhi Hb Hmu.
  destruct (inteiros_limitados_elem _ _ Hint Hlo) as (a & -> & Ha).
  destruct (inteiros_limitados_elem _ _ Hint Hhi) as (b & -> & Hb').
  rewrite (inteiros_media_f64 s Hint) in Hmu. unfold media_f64 in Hmu.
  destruct (dropna s) as [|v vs]; [done|]. injection Hmu as <-.
  apply round64_entre; [lia|lia| |].
  - apply media_ge. intros x Hx. by apply Hb.
  - apply media_le. intros x Hx. by apply Hb.
Qed.

Lemma mean_le_max (g s : list (option Qc)) mu M :
  inteiros_limitados (dropna s) → dropna g `sublist_of` dropna s →
  mean g = Some mu → max_skipna s = Some M → (mu ≤ M)%Qc.
Proof.
  intros Hint Hsub Hmu [HM Hle]%max_skipna_Some.
  apply elem_of_dropna in HM.
  destruct (inteiros_limitados_elem _ _ Hint HM) as (b & -> & Hb).
  pose proof (inteiros_limitados_sublist _ _ Hsub Hint) as Hg.
  rewrite (inteiros_media_f64 g Hg) in Hmu. unfold media_f64 in Hmu.
  destruct (dropna g) as [|v vs] eqn:Hd; [done|]. injection Hmu as <-.
  apply (round64_entre _ 0 b); [lia|lia| |].
  - apply media_ge. intros x Hx.
    destruct (inteiros_limitados_elem _ _ Hg Hx) as (z & -> & Hz).
    apply (proj1 (Z2Qc_inj_le _ _)). lia.
  - apply media_le. intros x Hx. apply Hle, elem_of_dropna.
    by eapply elem_of_sublist.
Qed.

Lemma media_de_grupo_le_max {K} `{EqDecision K} (le : K → K → bool)
    (key : Row → option K) (l : list Row) (v : DataFrame) k mu M :
  inteiros_limitados (dropna (usd <$> rows v)) →
  l `sublist_of` rows v →
  (k, Some mu) ∈ agg (λ g, mean (usd <$> g)) (groupby le key l) →
  max_skipna (usd <$> rows v) = Some M → (mu ≤ M)%Qc.
Proof.
  intros Hint Hsub [_ Hmu]%elem_of_agg_groupby HM.
  eapply mean_le_max; [exact Hint| |by symmetry|exact HM].
  apply salarios_sublist. etrans; [apply sublist_filter|done].
Qed.

(** X8. On a non-empty view both salary KPIs are NaN when no record has
    a salary.  Otherwise, when every salary is a binary64 value, the
    maximum KPI is the salary of some record and no salary of the view
    exceeds it.  When the salaries are whole non-negative numbers with a
    total below 2^53, the mean KPI is their exact mean rounded to
    binary64 and lies between the smallest and the largest salary. *)
Theorem salario_maximo_e_medio (v : DataFrame) (m : Metricas) :
  df_empty v = false → metricas v = inr m →
  ((∀ r, r ∈ rows v → usd r = None) →
     salario_medio m = None ∧ salario_maximo m = None) ∧
  ((∃ r, r ∈ rows v ∧ is_Some (usd r)) →
   (∀ r x, r ∈ rows v → usd r = Some x → representavel x) →
     ∃ M, salario_maximo m = Some M ∧
       (∃ r, r ∈ rows v ∧ usd r = Some M) ∧
       (∀ r x, r ∈ rows v → usd r = Some x → (x ≤ M)%Qc)) ∧
  (inteiros_limitados (dropna (usd <$> rows v)) →
     salario_medio m = media_f64 (dropna (usd <$> rows v)) ∧
     ∀ mu lo hi, salario_medio m = Some mu →
       (∃ r, r ∈ rows v ∧ usd r = Some lo) →
       (∃ r, r ∈ rows v ∧ usd r = Some hi) →
       (∀ r x, r ∈ rows v → usd r = Some x → (lo ≤ x)%Qc ∧ (x ≤ hi)%Qc) →
       (lo ≤ mu)%Qc ∧ (mu ≤ hi)%Qc).
Proof.
  intros Hv Hm. rewrite metricas_nao_vazia in Hm by done.
  injection Hm as <-. simpl. split; [|split].
  - intros Hnone.
    assert (dropna (usd <$> rows v) = []) as Hd.
    { apply dropna_nil_iff. intros c [r [-> Hr]]%list_elem_of_fmap. by apply Hnone. }
    unfold mean, max_skipna. by rewrite Hd.
  - intros (r0 & Hr0 & [x0 Hx0]) Hrep.
    destruct (max_skipna (usd <$> rows v)) as [M|] eqn:HM.
    2:{ unfold max_skipna in HM.
        destruct (dropna (usd <$> rows v)) as [|y ys] eqn:Hd; [|done].
        assert (x0 ∈ dropna (usd <$> rows v)) as Hin.
        { apply elem_of_dropna. rewrite <- Hx0. by apply list_elem_of_fmap_2. }
        rewrite Hd in Hin. by apply elem_of_nil in Hin. }
    destruct (max_skipna_Some _ _ HM) as [[r [HrM Hr]]%list_elem_of_fmap Hle].
    exists M. simpl. split; [f_equal; by eapply Hrep|].
    split; [by exists r|].
    intros r' x Hr' Hx. apply Hle. rewrite <- Hx. by apply list_elem_of_fmap_2.
  - intros Hint. split; [by apply inteiros_media_f64|].
    intros mu lo hi Hmu (rl & Hrl & Hlo) (rh & Hrh & Hhi) Hb.
    apply (mean_entre (usd <$> rows v)); [done| | | |done].
    + apply elem_of_dropna. rewrite <- Hlo. by apply list_elem_of_fmap_2.
    + apply elem_of_dropna. rewrite <- Hhi. by apply list_elem_of_fmap_2.
    + intros x [r [Hx Hr]]%elem_of_dropna%list_elem_of_fmap. by eapply Hb.
Qed.

Lemma salario_maximo_e_medio_witness :
  mean (usd <$> rows exemplo) = media_f64 (dropna (usd <$> rows exemplo)).
Proof.
  pose proof (salario_maximo_e_medio exemplo
    (mkMetricas (mean (usd <$> rows exemplo))
       (round64 <$> max_skipna (usd <$> rows exemplo))
       3 "Data Scientist") eq_refl eq_refl) as (_ & _ & H).
  apply H. exists [100000; 200000; 50000]%Z.
  split; [reflexivity|]. split; [repeat constructor; lia|reflexivity].
Defined.

(** ** Value counts *)
Section value_counts_lemmas.
Context {A : Type} `{EqDecision A}.

Lemma value_counts_Permutation (l : list A) :
  value_counts l ≡ₚ (λ v, (v, contar v l)) <$> unique l.
Proof. apply ordenar_Permutation. Qed.

Lemma elem_of_value_counts (l : list A) x n :
  (x, n) ∈ value_counts l ↔ x ∈ l ∧ n = contar x l.
Proof.
  rewrite value_counts_Permutation, list_elem_of_fmap.
  setoid_rewrite elem_of_unique. naive_solver.
Qed.

Lemma fst_value_counts (l : list A) : (value_counts l).*1 ≡ₚ unique l.
Proof.
  rewrite value_counts_Permutation, <- list_fmap_compose.
  assert (∀ k : list A, fst ∘ (λ v, (v, contar v l)) <$> k = k) as ->; [|done].
  intros k. induction k as [|x k IH]; csimpl; [done|]. by f_equal.
Qed.

Lemma snd_value_counts (l : list A) :
  (value_counts l).*2 ≡ₚ (λ v, contar v l) <$> unique l.
Proof. by rewrite value_counts_Permutation, <- list_fmap_compose. Qed.

Lemma value_counts_decrescente (l : list A) :
  StronglySorted (λ p q, (q.2 ≤ p.2)%nat) (value_counts l).
Proof.
  apply (StronglySorted_impl (λ p q : A * nat, (q.2 <=? p.2)%nat = true)).
  - intros p q. apply Nat.leb_le.
  - apply ordenar_StronglySorted.
    + intros p q. rewrite Nat.leb_gt, Nat.leb_le. lia.
    + intros p q r. rewrite !Nat.leb_le. lia.
Qed.

Lemma sum_indicador (ks : list A) (x : A) :
  NoDup ks → x ∈ ks →
  sum_list ((λ k, if decide (x = k) then 1 else 0)%nat <$> ks) = 1%nat.
Proof.
  induction 1 as [|k ks Hk Hnd IH]; intros Hx; [by apply elem_of_nil in Hx|].
  rewrite sum_list_fmap_cons. destruct (decide (x = k)) as [->|Hne].
  - rewrite sum_list_fmap_zero; [done|].
    intros k' Hk'. rewrite decide_False; [done|]. by intros ->.
  - apply elem_of_cons in Hx as [?|Hx]; [done|]. by rewrite IH.
Qed.

Lemma sum_contar (ks l : list A) :
  NoDup ks → (∀ x, x ∈ l → x ∈ ks) →
  sum_list ((λ k, contar k l) <$> ks) = length l.
Proof.
  intros Hnd. induction l as [|x l IH]; intros Hin.
  - by apply sum_list_fmap_zero.
  - assert (sum_list ((λ k, contar k (x :: l)) <$> ks) =
            (sum_list ((λ k, if decide (x = k) then 1 else 0)%nat <$> ks) +
             sum_list ((λ k, contar k l) <$> ks))%nat) as ->.
    { clear. induction ks as [|k ks IHk]; [done|].
      rewrite !sum_list_fmap_cons, IHk. unfold contar. rewrite filter_cons.
      destruct (decide (x = k)); simpl; lia. }
    rewrite sum_indicador by (done || apply Hin; left).
    rewrite IH by (intros y Hy; apply Hin; by right). done.
Qed.

Lemma sum_value_counts (l : list A) :
  sum_list ((value_counts l).*2) = length l.
Proof.
  rewrite snd_value_counts. apply sum_contar; [apply NoDup_unique|].
  intros x. apply elem_of_unique.
Qed.
End value_counts_lemmas.

Lemma contar_fmap {A} `{EqDecision A} (f : Row → A) (x : A) (l : list Row) :
  contar x (f <$> l) = length (filter (λ r, f r = x) l).
Proof.
  unfold contar. induction l as [|r l IH]; [done|].
  rewrite fmap_cons, !filter_cons. destruct (decide (f r = x)); simpl; by rewrite IH.
Qed.

(** X9. The remote-work table has one line per distinct value of the
    [remoto] cell, the missing value included as a value of its own; each
    line holds the number of records with that cell, the counts add up to
    the number of records of the view, and the lines are in decreasing
    order of count. *)
Theorem contagem_de_remoto (v : DataFrame) :
  NoDup ((remoto_contagem v).*1) ∧
  (∀ x n, (x, n) ∈ remoto_contagem v ↔
     (∃ r, r ∈ rows v ∧ remoto r = x) ∧
     n = length (filter (λ r, remoto r = x) (rows v))) ∧
  sum_list ((remoto_contagem v).*2) = length (rows v) ∧
  StronglySorted (λ p q, (q.2 ≤ p.2)%nat) (remoto_contagem v).
Proof.
  unfold remoto_contagem. split; [|split; [|split]].
  - rewrite fst_value_counts. apply NoDup_unique.
  - intros x n. rewrite elem_of_value_counts, contar_fmap, list_elem_of_fmap.
    naive_solver.
  - by rewrite sum_value_counts, length_fmap.
  - apply value_counts_decrescente.
Qed.

(** ** Top titles by volume, box plot and line chart *)

Lemma contar_pos {A} `{EqDecision A} (x : A) (l : list A) :
  x ∈ l → (0 < contar x l)%nat.
Proof.
  intros Hx. unfold contar.
  destruct (filter (λ y, y = x) l) as [|y k] eqn:Hf; [|simpl; lia].
  assert (x ∈ filter (λ y, y = x) l) as Hc by (by apply list_elem_of_filter).
  rewrite Hf in Hc. by apply elem_of_nil in Hc.
Qed.

Lemma ocorrencias_contar t v :
  ocorrencias t v = contar t (dropna (cargo <$> rows v)).
Proof. unfold ocorrencias. by rewrite contar_dropna_fmap. Qed.

Lemma elem_of_titulos t v :
  t ∈ dropna (cargo <$> rows v) ↔ ∃ r, r ∈ rows v ∧ cargo r = Some t.
Proof. rewrite elem_of_dropna, list_elem_of_fmap. naive_solver. Qed.

Lemma elem_of_top10_cargos v t :
  t ∈ top10_cargos v → ∃ r, r ∈ rows v ∧ cargo r = Some t.
Proof.
  intros [[t' m] [-> Hin]]%list_elem_of_fmap. simpl.
  apply nlargest_elem_of in Hin. by apply elem_of_agg_groupby in Hin as [Hr _].
Qed.

Lemma isin1_elem_of {A} `{EqDecision A} (vs : list A) (c : option A) :
  isin1 vs c = true ↔ ∃ t, c = Some t ∧ t ∈ vs.
Proof. apply isin1_true. Qed.

(** X11. The line chart selects min(5, number of distinct titles)
    titles, none twice, each occurring in the view, and no title left out
    occurs more often than a selected one. *)
Theorem top5_por_volume (v : DataFrame) :
  length (top5_cargos v) = min 5 (length (unique (dropna (cargo <$> rows v)))) ∧
  NoDup (top5_cargos v) ∧
  (∀ t, t ∈ top5_cargos v → (0 < ocorrencias t v)%nat) ∧
  (∀ t t', t ∈ top5_cargos v → t' ∉ top5_cargos v →
           (ocorrencias t' v ≤ ocorrencias t v)%nat).
Proof.
  unfold top5_cargos.
  set (ge := λ a b : nat, (b <=? a)%nat).
  set (vc := value_counts (dropna (cargo <$> rows v))).
  assert (∀ a b, ge a b = false → ge b a = true) as Htot.
  { intros a b. unfold ge. rewrite Nat.leb_gt, Nat.leb_le. lia. }
  assert (∀ a b c, ge a b = true → ge b c = true → ge a c = true) as Htrans.
  { intros a b c. unfold ge. rewrite !Nat.leb_le. lia. }
  assert (∀ t, t ∈ (nlargest ge 5 vc).*1 →
            (t, ocorrencias t v) ∈ nlargest ge 5 vc) as Hin.
  { intros t [[t' n] [-> Hin]]%list_elem_of_fmap. simpl.
    pose proof (nlargest_elem_of ge 5 vc _ Hin) as [_ ->]%elem_of_value_counts.
    by rewrite ocorrencias_contar. }
  split; [|split; [|split]].
  - rewrite length_fmap, nlargest_length. unfold vc.
    by rewrite <- (length_fmap fst (value_counts _)), fst_value_counts.
  - apply nlargest_NoDup_fst. unfold vc. rewrite fst_value_counts.
    apply NoDup_unique.
  - intros t Ht%Hin. apply nlargest_elem_of, elem_of_value_counts in Ht as [Ht _].
    rewrite ocorrencias_contar. by apply contar_pos.
  - intros t t' Ht%Hin Ht'.
    destruct (decide (t' ∈ dropna (cargo <$> rows v))) as [Hd|Hd].
    + apply Nat.leb_le.
      apply (nlargest_domina ge Htot Htrans 5 vc (t, ocorrencias t v)
               (t', ocorrencias t' v)); [done| |].
      * apply elem_of_value_counts. split; [done|apply ocorrencias_contar].
      * intros Hc. apply Ht', list_elem_of_fmap. by exists (t', ocorrencias t' v).
    + rewrite (ocorrencias_contar t'), contar_zero by done. lia.
Qed.

(** X10. The box plot receives exactly the records of the view whose
    title is one of [top10_cargos], in view order; every selected title has
    a record there; and when the view has at most 10 distinct titles the
    box plot receives every record that has a title. *)
Theorem df_box_top10 (v : DataFrame) :
  (∀ r, r ∈ rows (df_box v) ↔
        r ∈ rows v ∧ ∃ t, cargo r = Some t ∧ t ∈ top10_cargos v) ∧
  sublist (rows (df_box v)) (rows v) ∧
  (∀ t, t ∈ top10_cargos v → ∃ r, r ∈ rows (df_box v) ∧ cargo r = Some t) ∧
  ((length (unique (dropna (cargo <$> rows v))) ≤ 10)%nat →
   rows (df_box v) = filter (λ r, is_Some (cargo r)) (rows v)).
Proof.
  assert (rows (df_box v) =
          filter (λ r, isin1 (top10_cargos v) (cargo r) = true) (rows v)) as Hrows
    by apply loc_mask_isin.
  assert (∀ r, r ∈ rows (df_box v) ↔
            r ∈ rows v ∧ ∃ t, cargo r = Some t ∧ t ∈ top10_cargos v) as Hin.
  { intros r. rewrite Hrows, list_elem_of_filter, isin1_elem_of. naive_solver. }
  split; [done|]. split; [rewrite Hrows; apply sublist_filter|]. split.
  - intros t Ht. destruct (elem_of_top10_cargos _ _ Ht) as (r & Hr & Hc).
    exists r. split; [|done]. apply Hin. split; [done|]. by exists t.
  - intros Hlen. rewrite Hrows. apply filter_ext_elem_of. intros r Hr.
    rewrite isin1_elem_of. split; [intros (t & -> & _); by eexists|].
    intros [t Ht]. exists t. split; [done|].
    unfold top10_cargos, nlargest. rewrite take_ge.
    + rewrite ordenar_Permutation. unfold media_por_cargo.
      rewrite fst_agg_groupby. apply elem_of_group_keys. by exists r.
    + by rewrite length_ordenar, length_media_por_cargo.
Qed.

(** *** The median of a group *)

Lemma na_posicao_Permutation k l l' y :
  l ≡ₚ l' → na_posicao k l y → na_posicao k l' y.
Proof. intros Hp (Hin & Hlo & Hhi). unfold na_posicao. by rewrite <- !Hp. Qed.

Lemma filter_nil_forall {A} (P : A → Prop) `{∀ x, Decision (P x)} (l : list A) :
  (∀ x, x ∈ l → ¬ P x) → filter P l = [].
Proof.
  induction l as [|x l IH]; intros Hl; [done|].
  rewrite filter_cons_False by (apply Hl; left).
  apply IH. intros y Hy. apply Hl. by right.
Qed.

Lemma na_posicao_ordenado vs k y :
  StronglySorted Qcle vs → vs !! k = Some y → na_posicao k vs y.
Proof.
  intros Hs Hk.
  pose proof (take_drop_middle _ _ _ Hk) as Heq.
  pose proof (lookup_lt_Some _ _ _ Hk) as Hlt.
  split; [by eapply list_elem_of_lookup_2|].
  rewrite <- Heq in Hs |- *. rewrite !filter_app, !length_app.
  assert (length (take k vs) = k) as Htk by (rewrite length_take; lia).
  split.
  - rewrite (filter_nil_forall _ (y :: drop (S k) vs)).
    + simpl. pose proof (length_filter (λ x, (x < y)%Qc) (take k vs)). lia.
    + intros x Hx Hxy. apply elem_of_cons in Hx as [->|Hx].
      * by apply (Qcle_not_lt y y (Qcle_refl y)).
      * apply StronglySorted_app_1_r, StronglySorted_cons in Hs as [Hall _].
        rewrite Forall_forall in Hall. apply Hall in Hx.
        by apply Qcle_not_lt in Hx.
  - rewrite (filter_todos _ (take k vs)).
    + rewrite filter_cons_True by apply Qcle_refl. simpl. lia.
    + intros x Hx.
      eapply (StronglySorted_app_1_elem_of Qcle); [exact Hs|done|left].
Qed.

Lemma length_filter_impl {A} (P Q : A → Prop) `{∀ x, Decision (P x)}
    `{∀ x, Decision (Q x)} (l : list A) :
  (∀ x, P x → Q x) → (length (filter P l) ≤ length (filter Q l))%nat.
Proof.
  intros HPQ. induction l as [|x l IH]; [done|].
  rewrite !filter_cons. destruct (decide (P x)) as [HP|HP].
  - rewrite decide_True by (by apply HPQ). simpl. lia.
  - destruct (decide (Q x)); simpl; lia.
Qed.

Lemma na_posicao_unica k l y y' :
  na_posicao k l y → na_posicao k l y' → y = y'.
Proof.
  assert (∀ a b, na_posicao k l a → na_posicao k l b → ¬ (a < b)%Qc) as Hno.
  { intros a b (_ & _ & Ha) (_ & Hb & _) Hab.
    pose proof (length_filter_impl (λ x, (x ≤ a)%Qc) (λ x, (x < b)%Qc) l) as Hle.
    assert (length (filter (λ x, (x ≤ a)%Qc) l) ≤
            length (filter (λ x, (x < b)%Qc) l))%nat; [|lia].
    apply Hle. intros x Hx. by eapply Qcle_lt_trans. }
  intros Hy Hy'. destruct (Qc_dec y y') as [[Hlt|Hlt]|Heq]; [| |done].
  - by destruct (Hno y y').
  - by destruct (Hno y' y).
Qed.

Lemma metades n :
  (0 < n)%nat →
  (n / 2 < n)%nat ∧
  (if Nat.odd n then ((n - 1) / 2 = n / 2)%nat
   else ((n - 1) / 2 = n / 2 - 1)%nat ∧ (1 ≤ n / 2)%nat).
Proof.
  intros Hn.
  pose proof (Nat.div_mod_eq n 2). pose proof (Nat.mod_upper_bound n 2).
  pose proof (Nat.div_mod_eq (n - 1) 2). pose proof (Nat.mod_upper_bound (n - 1) 2).
  split; [lia|].
  destruct (Nat.odd n) eqn:Hodd.
  - apply Nat.odd_spec in Hodd as [m Hm]. lia.
  - rewrite <- Nat.negb_even in Hodd. apply negb_false_iff, Nat.even_spec in Hodd as [m Hm].
    lia.
Qed.

Lemma mediana_f64_unica vals m m' :
  mediana_f64 vals m → mediana_f64 vals m' → m = m'.
Proof.
  intros (lo & hi & Hlo & Hhi & ->) (lo' & hi' & Hlo' & Hhi' & ->).
  by rewrite (na_posicao_unica _ _ _ _ Hlo Hlo'), (na_posicao_unica _ _ _ _ Hhi Hhi').
Qed.

Lemma mediana_de_unica vals m m' :
  mediana_de vals m → mediana_de vals m' → m = m'.
Proof.
  intros (lo & hi & Hlo & Hhi & ->) (lo' & hi' & Hlo' & Hhi' & ->).
  by rewrite (na_posicao_unica _ _ _ _ Hlo Hlo'), (na_posicao_unica _ _ _ _ Hhi Hhi').
Qed.

Lemma ordenar_Qcle l : StronglySorted Qcle (ordenar Qc_leb l).
Proof.
  eapply StronglySorted_impl;
    [|apply ordenar_StronglySorted; [exact Qc_leb_total|exact Qc_leb_trans]].
  intros a b. apply Qc_leb_le.
Qed.

Lemma median_None s : median s = None ↔ dropna s = [].
Proof.
  unfold median.
  set (vs := ordenar Qc_leb (round64 <$> dropna s)).
  assert (length vs = length (dropna s)) as Hlen
    by (unfold vs; by rewrite length_ordenar, length_fmap).
  destruct (length vs) as [|n'] eqn:Hn.
  - simpl. split; [intros _|done]. by apply length_zero_iff_nil.
  - change (S n' =? 0)%nat with false. cbv iota.
    destruct (metades (S n')) as [Hlt Hpar]; [lia|].
    split; [|intros Hd; rewrite Hd in Hlen; simpl in Hlen; lia].
    pose proof Hlt as Hlt0. rewrite <- Hn in Hlt.
    destruct (lookup_lt_is_Some_2 vs _ Hlt) as [b Hb]. rewrite Hn in Hb.
    destruct (Nat.odd (S n')); [by rewrite Hb|].
    destruct Hpar as [_ H1].
    assert (S n' / 2 - 1 < length vs)%nat as Hlt' by lia.
    destruct (lookup_lt_is_Some_2 vs _ Hlt') as [a Ha].
    by rewrite Ha, Hb.
Qed.

Lemma median_mediana_f64 s m :
  median s = Some m ↔ mediana_f64 (round64 <$> dropna s) m.
Proof.
  assert (∀ m, median s = Some m → mediana_f64 (round64 <$> dropna s) m) as Hdir.
  { clear m. intros m. unfold median.
    set (vals := round64 <$> dropna s).
    set (vs := ordenar Qc_leb vals).
    assert (vs ≡ₚ vals) as Hperm by apply ordenar_Permutation.
    assert (length vs = length vals) as Hlen by (by rewrite Hperm).
    pose proof (ordenar_Qcle vals) as Hs. fold vs in Hs.
    destruct (length vs =? 0)%nat eqn:H0; [done|].
    apply Nat.eqb_neq in H0.
    destruct (metades (length vs)) as [Hlt Hpar]; [lia|].
    unfold mediana_f64. rewrite <- Hlen.
    destruct (Nat.odd (length vs)).
    - intros Hm. exists m, m. rewrite Hpar.
      split; [|split; [|done]];
        eapply na_posicao_Permutation; eauto using na_posicao_ordenado.
    - destruct Hpar as [Hpar _].
      destruct (vs !! (length vs / 2 - 1)%nat) as [a|] eqn:Ha; [|done].
      destruct (vs !! (length vs / 2)%nat) as [b|] eqn:Hb; [|done].
      intros [= <-]. exists a, b. rewrite Hpar.
      split; [|split; [|done]];
        eapply na_posicao_Permutation; eauto using na_posicao_ordenado. }
  split; [apply Hdir|]. intros Hm.
  destruct (median s) as [m'|] eqn:Hmed.
  - f_equal. eapply mediana_f64_unica; [|exact Hm]. by apply Hdir.
  - apply median_None in Hmed. rewrite Hmed in Hm.
    destruct Hm as (lo & _ & (Hin & _) & _). by apply elem_of_nil in Hin.
Qed.

Lemma mediana_inteiros vals m :
  inteiros_abaixo_de (2 ^ 52) vals →
  mediana_f64 (round64 <$> vals) m ↔ mediana_de vals m.
Proof.
  intros Hint. rewrite (inteiros_abaixo_de_representavel vals Hint).
  assert (∀ lo hi, na_posicao ((length vals - 1) / 2) vals lo →
                   na_posicao (length vals / 2) vals hi →
            (if Nat.odd (length vals) then hi
             else fdiv (fadd lo hi) (Qc_of_Z 2)) = ((lo + hi) / Qc_of_Z 2)%Qc)
    as Heq.
  { intros lo hi Hlo Hhi.
    assert (0 < length vals)%nat as Hn.
    { destruct Hlo as [Hin _]. destruct vals; [by apply elem_of_nil in Hin|simpl; lia]. }
    destruct (metades _ Hn) as [_ Hpar].
    destruct (Nat.odd (length vals)).
    - rewrite Hpar in Hlo. rewrite (na_posicao_unica _ _ _ _ Hlo Hhi).
      by rewrite metade_do_dobro.
    - unfold inteiros_abaixo_de in Hint. rewrite Forall_forall in Hint.
      destruct (Hint lo (proj1 Hlo)) as (a & -> & Ha).
      destruct (Hint hi (proj1 Hhi)) as (b & -> & Hb).
      unfold fdiv, fadd. rewrite <- Z2Qc_inj_add.
      assert (0 ≤ a + b < 2 ^ 53)%Z as Hab by lia.
      rewrite (round64_inteiro _ Hab). by apply round64_metade. }
  split; intros (lo & hi & Hlo & Hhi & ->); exists lo, hi;
    (split; [done|split; [done|]]); [|symmetry]; by apply Heq.
Qed.

(** X12. The line chart is computed from the records whose title is one
    of [top5_cargos], at most 5 titles: it holds one line per
    (year, title) pair of those records.  The value of a line is NaN
    exactly when no record of the pair has a salary; otherwise it is the
    binary64 median of the salaries of the pair: the middle salary, or
    the rounded half of the rounded sum of the two middle ones.  When the
    salaries of the pair are whole numbers below 2^52 it is their exact
    median.  On the three-record example the lines are 150000 for
    (2023, Data Scientist) and 50000 for (2024, Analyst). *)
Theorem df_linha_series (v : DataFrame) :
  (∀ r, r ∈ linhas_top5 v ↔
        r ∈ rows v ∧ ∃ t, cargo r = Some t ∧ t ∈ top5_cargos v) ∧
  agregado_por_par ano cargo (λ g, median (usd <$> g)) (linhas_top5 v)
    (df_linha v) ∧
  (∀ a c x, ((a, c), x) ∈ df_linha v →
     (x = None ↔
        salarios (λ r, ano r = Some a ∧ cargo r = Some c) (linhas_top5 v) = []) ∧
     (∀ m, x = Some m ↔
        mediana_f64
          (round64 <$>
             salarios (λ r, ano r = Some a ∧ cargo r = Some c) (linhas_top5 v))
          m) ∧
     (inteiros_abaixo_de (2 ^ 52)
        (salarios (λ r, ano r = Some a ∧ cargo r = Some c) (linhas_top5 v)) →
      ∀ m, x = Some m ↔
        mediana_de
          (salarios (λ r, ano r = Some a ∧ cargo r = Some c) (linhas_top5 v))
          m)) ∧
  (∀ a c x, ((a, c), x) ∈ df_linha v → c ∈ top5_cargos v) ∧
  (length (top5_cargos v) ≤ 5)%nat ∧
  df_linha exemplo =
    [((2023%Z, "Data Scientist"), Some (Qc_of_Z 150000));
     ((2024%Z, "Analyst"), Some (Qc_of_Z 50000))].
Proof.
  assert (∀ r, r ∈ linhas_top5 v ↔
            r ∈ rows v ∧ ∃ t, cargo r = Some t ∧ t ∈ top5_cargos v) as Hin.
  { intros r. unfold linhas_top5.
    rewrite loc_mask_isin, list_elem_of_filter, isin1_elem_of. naive_solver. }
  assert (agregado_por_par ano cargo (λ g, median (usd <$> g)) (linhas_top5 v)
            (df_linha v)) as Hagg.
  { apply agregado_por_chave2, (agg_groupby_agregado _ (chave2 ano cargo)). }
  split; [done|]. split; [done|]. split; [|split; [|split]].
  - intros a c x Hx. apply Hagg in Hx as [_ ->]. unfold salarios.
    split; [apply median_None|]. split.
    + intros m. apply median_mediana_f64.
    + intros Hint m. rewrite median_mediana_f64. by apply mediana_inteiros.
  - intros a c x Hx. apply Hagg in Hx as [(r & Hr & _ & Hc) _].
    apply Hin in Hr as [_ (t & Ht & Htop)]. congruence.
  - unfold top5_cargos. rewrite length_fmap.
    unfold nlargest. rewrite length_take. lia.
  - por_calculo.
Qed.

(** ** Animated map, placeholders, sunburst totals, heatmap shape *)

Lemma nil_iff_sem_elementos {A} (l : list A) : l = [] ↔ ∀ x, x ∉ l.
Proof.
  split; [intros -> x; apply not_elem_of_nil|apply elem_of_nil_inv].
Qed.

Lemma cargos_disp_spec v t :
  t ∈ cargos_disp v ↔ ∃ r, r ∈ rows v ∧ cargo r = Some t.
Proof. apply elem_of_disponiveis_coluna. Qed.

Lemma df_anim_nil v t :
  df_anim v t = [] ↔
  ¬ ∃ r, r ∈ rows v ∧ cargo r = Some t ∧ is_Some (ano r) ∧
         is_Some (residencia_iso3 r).
Proof.
  rewrite nil_iff_sem_elementos. unfold df_anim, media_ano_pais. split.
  - intros Hnone (r & Hr & Hc & [a Ha] & [p Hp]).
    apply (Hnone ((a, p), mean (usd <$> filter (λ r, chave2 ano residencia_iso3 r = Some (a, p))
                                   (linhas_cargo v t)))).
    apply elem_of_ordenar, (elem_of_agg_groupby _ (chave2 ano residencia_iso3)).
    split; [|done]. exists r. split; [|by apply chave2_Some].
    unfold linhas_cargo. rewrite loc_mask_eq. by apply list_elem_of_filter.
  - intros Hnone [[a p] x] Hx. apply Hnone.
    apply elem_of_ordenar, agg_groupby_chaves in Hx as (r & Hr & Ha & Hp).
    unfold linhas_cargo in Hr. rewrite loc_mask_eq in Hr.
    apply list_elem_of_filter in Hr as [Hc Hr].
    exists r. repeat split; try done; by eexists.
Qed.

(** X14. The animated-map tab: the list of selectable titles is empty
    exactly when no record has a title, and then the tab shows the "no
    titles" warning; otherwise it shows the chart of the chosen title when
    some record of that title has both a year and a country code, and the
    "not enough data" warning when none has.  The first option (the
    default of the select box) precedes every title of the view in string
    order. *)
Theorem mapa_animado_avisos (v : DataFrame) (escolha : list string → string) :
  (cargos_disp v = [] ↔ ∀ r, r ∈ rows v → cargo r = None) ∧
  ((∀ r, r ∈ rows v → cargo r = None) →
     aba7 v escolha = Aviso "Não há cargos disponíveis após os filtros.") ∧
  ((∃ r, r ∈ rows v ∧ is_Some (cargo r)) →
     ((∃ r, r ∈ rows v ∧ cargo r = Some (escolha (cargos_disp v)) ∧
            is_Some (ano r) ∧ is_Some (residencia_iso3 r)) →
        aba7 v escolha = Grafico (df_anim v (escolha (cargos_disp v)))) ∧
     ((¬ ∃ r, r ∈ rows v ∧ cargo r = Some (escolha (cargos_disp v)) ∧
              is_Some (ano r) ∧ is_Some (residencia_iso3 r)) →
        aba7 v escolha =
          Aviso "Não há dados suficientes para o cargo selecionado.")) ∧
  (∀ t k, cargos_disp v = t :: k →
     ∀ t', (∃ r, r ∈ rows v ∧ cargo r = Some t') → str_le t t' = true).
Proof.
  assert (cargos_disp v = [] ↔ ∀ r, r ∈ rows v → cargo r = None) as Hnil.
  { rewrite nil_iff_sem_elementos. split.
    - intros Hnone r Hr. destruct (cargo r) as [t|] eqn:Hc; [|done].
      destruct (Hnone t). apply cargos_disp_spec. by exists r.
    - intros Hnone t [r [Hr Hc]]%cargos_disp_spec. rewrite Hnone in Hc; done. }
  split; [done|]. split; [|split].
  - intros Hnone. unfold aba7. by rewrite (proj2 Hnil Hnone).
  - intros (r & Hr & [t Ht]).
    assert (cargos_disp v ≠ []) as Hne.
    { intros Hn. rewrite (proj1 Hnil Hn r Hr) in Ht. done. }
    unfold aba7. destruct (cargos_disp v) as [|t0 k] eqn:Hd; [done|].
    split; intros Hsel.
    + rewrite bool_decide_eq_false_2; [done|].
      intros Hn. by apply df_anim_nil in Hn.
    + rewrite bool_decide_eq_true_2; [done|]. by apply df_anim_nil.
  - intros t k Hd t' Ht'%cargos_disp_spec.
    assert (StronglySorted (λ a b, str_le a b = true) (cargos_disp v)) as Hs.
    { apply ordenar_StronglySorted; [exact str_le_total|exact str_le_trans]. }
    rewrite Hd in Hs, Ht'. apply StronglySorted_cons in Hs as [Hall _].
    apply elem_of_cons in Ht' as [->|Ht'].
    + destruct (str_le t t) eqn:Htt; [done|].
      pose proof (str_le_total _ _ Htt). congruence.
    + rewrite Forall_forall in Hall. by apply Hall.
Qed.

Lemma df_filtrado_vazio df sel :
  anos_selecionados sel = [] ∨ senioridades_selecionadas sel = [] ∨
  contratos_selecionados sel = [] ∨ tamanhos_selecionados sel = [] →
  df_empty (df_filtrado df sel) = true.
Proof.
  intros Hvazio. unfold df_empty.
  destruct (rows (df_filtrado df sel)) as [|r k] eqn:Hk; [done|]. exfalso.
  assert (r ∈ rows (df_filtrado df sel)) as Hr by (rewrite Hk; left).
  apply elem_of_rows_df_filtrado in Hr
    as [_ ((a & _ & Ha) & (s & _ & Hs) & (c & _ & Hc) & (t & _ & Ht))].
  destruct Hvazio as [H|[H|[H|H]]]; rewrite H in *; by eapply elem_of_nil.
Qed.

(** X15. When one of the four selection sets is empty, every chart
    panel shows its warning and the tabs are replaced by the information
    box; no aggregation is run. *)
Theorem selecao_vazia_so_avisos (df : DataFrame) (sel : Selecao)
    (escolha : list string → string) :
  anos_selecionados sel = [] ∨ senioridades_selecionadas sel = [] ∨
  contratos_selecionados sel = [] ∨ tamanhos_selecionados sel = [] →
  grafico_cargos (df_filtrado df sel) =
    Aviso "Nenhum dado para exibir no gráfico de cargos." ∧
  grafico_hist (df_filtrado df sel) =
    Aviso "Nenhum dado para exibir no gráfico de distribuição." ∧
  grafico_remoto (df_filtrado df sel) =
    Aviso "Nenhum dado para exibir no gráfico dos tipos de trabalho." ∧
  grafico_paises (df_filtrado df sel) =
    Aviso "Nenhum dado para exibir no gráfico de países." ∧
  modelos_adicionais (df_filtrado df sel) escolha =
    Info "Nenhum dado com os filtros atuais para exibir nos modelos adicionais.".
Proof.
  intros Hv%(df_filtrado_vazio df).
  unfold grafico_cargos, grafico_hist, grafico_remoto, grafico_paises,
    modelos_adicionais.
  by rewrite Hv.
Qed.

Lemma selecao_vazia_so_avisos_witness :
  grafico_hist (df_filtrado exemplo (mkSel [2023%Z] ["senior"] [] ["M"])) =
    Aviso "Nenhum dado para exibir no gráfico de distribuição.".
Proof.
  apply (selecao_vazia_so_avisos exemplo (mkSel [2023%Z] ["senior"] [] ["M"])
           (λ _, "")).
  right; right; left; reflexivity.
Defined.

(** X16. On a filtered view the sunburst counts every record: the
    counts add up to the number of records of the view, each count is at
    least 1, and the sunburst has the same (seniority, contract) pairs as
    the heatmap. *)
Theorem sunburst_conta_toda_a_vista (df : DataFrame) (sel : Selecao) :
  sum_list ((df_sun (df_filtrado df sel)).*2) = length (rows (df_filtrado df sel)) ∧
  (∀ k n, (k, n) ∈ df_sun (df_filtrado df sel) → (0 < n)%nat) ∧
  (df_sun (df_filtrado df sel)).*1 = (media_sen_contrato (df_filtrado df sel)).*1.
Proof.
  split; [|split].
  - unfold df_sun. rewrite (soma_dos_tamanhos (chave2 senioridade contrato)).
    unfold sem_faltantes. f_equal. apply filter_todos.
    intros r [_ Hs]%elem_of_rows_df_filtrado.
    apply chave2_is_Some. by apply satisfaz_completo in Hs as (_ & ? & ? & _).
  - intros k n. unfold df_sun.
    intros [(r & Hr & Hk) ->]%(elem_of_agg_groupby _ (chave2 senioridade contrato)).
    destruct (filter _ (rows (df_filtrado df sel))) as [|y ys] eqn:Hf; [|simpl; lia].
    assert (r ∈ filter (λ r, chave2 senioridade contrato r = Some k)
                  (rows (df_filtrado df sel))) as Hc
      by (by apply list_elem_of_filter).
    rewrite Hf in Hc. by apply elem_of_nil in Hc.
  - unfold df_sun, media_sen_contrato. by rewrite !fst_agg_groupby.
Qed.

(** X17. The heatmap matrix is always built and is rectangular: one
    row of cells per row label, each with one cell per column label; both
    label lists are ascending without repetition; a cell exists exactly at
    the pairs of a row label and a column label. *)
Theorem heatmap_matriz_retangular (v : DataFrame) :
  ∃ p, piv v = inr p ∧
    length (piv_values p) = length (piv_index p) ∧
    Forall (λ linha, length linha = length (piv_columns p)) (piv_values p) ∧
    crescente_sem_repetir str_le (piv_index p) ∧
    crescente_sem_repetir str_le (piv_columns p) ∧
    (∀ s c, is_Some (celula p s c) ↔ s ∈ piv_index p ∧ c ∈ piv_columns p).
Proof.
  destruct (media_sen_contrato_agregado v) as [Hnd _].
  pose proof (pivot_ok _ Hnd) as Hp. unfold piv.
  set (p := mkPivot _ _ _) in Hp. exists p.
  split; [done|]. split; [unfold p; simpl; by rewrite length_fmap|]. split.
  { unfold p; simpl. apply Forall_fmap, Forall_forall. intros s _. simpl.
    by rewrite length_fmap. }
  split.
  { unfold p; simpl.
    split; [apply ordenar_StronglySorted; [exact str_le_total|exact str_le_trans]|].
    apply NoDup_ordenar, NoDup_unique. }
  split.
  { unfold p; simpl.
    split; [apply ordenar_StronglySorted; [exact str_le_total|exact str_le_trans]|].
    apply NoDup_ordenar, NoDup_unique. }
  intros s c. split.
  - intros Hcel.
    destruct (decide (s ∈ piv_index p)) as [Hs|Hs];
      [destruct (decide (c ∈ piv_columns p)) as [Hc|Hc]; [done|]|].
    + rewrite celula_fora in Hcel by (by right). by destruct Hcel.
    + rewrite celula_fora in Hcel by (by left). by destruct Hcel.
  - intros [Hs Hc]. rewrite (celula_dentro _ _ _ _ Hp Hs Hc). by eexists.
Qed.

(** ** Group means against the maximum-salary KPI *)

(** X13. When the salaries of the view are whole non-negative numbers
    with a total below 2^53, the maximum-salary KPI is the largest of
    them and no mean shown in a chart exceeds it: not in the top-titles
    chart, nor in the "Data Scientist" map, nor in the treemap, nor in
    the heatmap.  Without that proviso a mean can exceed the maximum: for
    three records with a salary of 0.1 the mean shown is
    0.10000000000000002. *)
Theorem medias_nao_passam_do_maximo (v : DataFrame) (M : Qc) :
  inteiros_limitados (dropna (usd <$> rows v)) →
  max_skipna (usd <$> rows v) = Some M →
  (∀ m, metricas v = inr m → salario_maximo m = Some M) ∧
  (∀ t mu, (t, Some mu) ∈ top_cargos v → (mu ≤ M)%Qc) ∧
  (∀ p mu, (p, Some mu) ∈ media_ds_pais v → (mu ≤ M)%Qc) ∧
  (∀ k mu, (k, Some mu) ∈ df_treemap v → (mu ≤ M)%Qc) ∧
  (∀ k mu, (k, Some mu) ∈ media_sen_contrato v → (mu ≤ M)%Qc) ∧
  (∃ m mu M', metricas tres_decimos = inr m ∧
     salario_maximo m = Some M' ∧
     top_cargos tres_decimos = [("Analyst", Some mu)] ∧
     (M' < mu)%Qc).
Proof.
  intros Hint HM. split; [|split; [|split; [|split; [|split]]]].
  - intros m Hm.
    assert (df_empty v = false) as Hv.
    { unfold df_empty. destruct (rows v); [done|done]. }
    rewrite metricas_nao_vazia in Hm by done. injection Hm as <-. simpl.
    rewrite HM. simpl. f_equal.
    apply max_skipna_Some in HM as [HM _]. apply elem_of_dropna in HM.
    destruct (inteiros_limitados_elem _ _ Hint HM) as (b & -> & Hb).
    by apply round64_inteiro.
  - intros t mu Ht. unfold top_cargos in Ht.
    rewrite sort_values_Permutation in Ht. apply nlargest_elem_of in Ht.
    by eapply (media_de_grupo_le_max str_le cargo (rows v) v).
  - intros p mu Hp.
    eapply (media_de_grupo_le_max str_le residencia_iso3 (rows (df_ds v)) v);
      [done| |done|done].
    rewrite rows_df_ds. apply sublist_filter.
  - intros k mu Hk. by eapply (media_de_grupo_le_max _ _ (rows v) v).
  - intros k mu Hk. by eapply (media_de_grupo_le_max _ _ (rows v) v).
  - exists (mkMetricas (Some (Q2Qc (7205759403792795 # 72057594037927936)))
              (Some (Q2Qc (3602879701896397 # 36028797018963968)))
              3 "Analyst"),
      (Q2Qc (7205759403792795 # 72057594037927936)),
      (Q2Qc (3602879701896397 # 36028797018963968)).
    split; [|split; [done|split]].
    + rewrite metricas_nao_vazia by done. f_equal.
      assert (mean (usd <$> rows tres_decimos) =
              Some (Q2Qc (7205759403792795 # 72057594037927936))) as ->
        by por_calculo.
      assert (max_skipna (usd <$> rows tres_decimos) =
              Some (Q2Qc (1 # 10))) as -> by por_calculo.
      assert (round64 (Q2Qc (1 # 10)) =
              Q2Qc (3602879701896397 # 36028797018963968)) as Hr by por_calculo.
      csimpl. by rewrite Hr.
    + por_calculo.
    + by vm_compute.
Qed.

Lemma medias_nao_passam_do_maximo_witness :
  (Qc_of_Z 150000 ≤ Qc_of_Z 200000)%Qc.
Proof.
  assert (inteiros_limitados (dropna (usd <$> rows exemplo))) as Hint.
  { exists [100000; 200000; 50000]%Z.
    split; [reflexivity|]. split; [repeat constructor; lia|reflexivity]. }
  assert (max_skipna (usd <$> rows exemplo) = Some (Qc_of_Z 200000)) as HM
    by (apply (bool_decide_unpack _); by vm_compute).
  destruct (medias_nao_passam_do_maximo exemplo (Qc_of_Z 200000) Hint HM)
    as (_ & Htop & _).
  apply (Htop "Data Scientist").
  apply (bool_decide_unpack _). by vm_compute.
Defined.
